(** * We-Are-ExpressJS: the session de-duplication helper and two middlewares

    A shallow embedding of
      - [src/helper/session-helper.ts]  ([getSessionFromStorageWrapper]),
      - [src/http-error/http-error.ts], [src/http-error/error-handler.ts],
      - [src/middleware/vc-middleware.ts]  ([validateAccessGrant]),
    and the properties the specification states about them, followed by
      - [src/middleware/session-middleware.ts],
      - [src/helper/resource-helper.ts],
      - [src/middleware/pod-middleware.ts],
      - [src/middleware/resource-middleware.ts],
    the callers of the above, with properties read off their code.

    The helper is an [async] function running on the single-threaded
    JavaScript event loop.  Its body has one suspension point on each
    path ([await firstValueFrom ...] for a follower, [await
    getSessionFromStorage ...] for a leader); the code between two
    suspension points runs without interleaving.  The embedding therefore
    models every call as a task, and the program as a transition system
    whose atomic steps are
      - the synchronous prefix of a call, up to its [await], and
      - the continuation of a leader, from the settling of its
        [getSessionFromStorage] promise to its [return]. *)

From Stdlib Require Import ZArith NArith Ascii String.
From stdpp Require Import base list strings.

Local Open Scope Z_scope.

(** ** Data model *)

Module SessionHelper.

(** The part of [Session] from [@inrupt/solid-client-authn-node] that this
    repository reads: [session.info.sessionId], [session.info.webId] and
    [session.info.isLoggedIn]. *)
Record ISessionInfo := mkInfo {
  sessionId : string;
  webId : option string;
  isLoggedIn : bool
}.

Record Session := mkSession { info : ISessionInfo }.

(** A value pushed through [refreshedSubject : Subject<Session | Error | null>].
    An [Error] is represented by its [message]. *)
Inductive Emitted :=
  | ESession (session : Session)
  | EError (message : string)
  | ENull.

(** How the promise returned by [getSessionFromStorage] settles: fulfilled
    with a session, fulfilled with no session (not found), or rejected.
    The catch block reads the rejection reason once, to convert it to a
    string inside the template literal of line 44.  That conversion either
    yields a text ([Rejected], with the text) or throws
    ([RejectedUnprintable], with the message of what it throws: a
    [TypeError] for a [Symbol] or for an object without a string
    conversion, or what the reason's own [toString] throws). *)
Inductive FetchResult :=
  | Fetched (session : option Session)
  | Rejected (error : string)
  | RejectedUnprintable (thrown : string).

(** One call of [getSessionFromStorageWrapper]: suspended at the [await] of
    the leader branch (line 39), suspended at the [await] of the follower
    branch (line 14), or settled (its promise fulfilled with a value, or
    rejected with an error of that [message]). *)
Inductive Task :=
  | AwaitStorage (sid : string)
  | AwaitSubject (sid : string)
  | Returned (session : option Session)
  | Thrown (message : string).

(** The module-level state, together with two logs that record what the
    module does to its collaborators: the arguments of every
    [getSessionFromStorage] call and every value passed to
    [refreshedSubject.next]. *)
Record State := mkState {
  refreshingSessions : list string;
  tasks : list Task;
  backendCalls : list string;
  emitted : list Emitted
}.

Definition init : State :=
  {| refreshingSessions := []; tasks := []; backendCalls := []; emitted := [] |}.

(** ** Array primitives *)

(** [Array.prototype.indexOf]: index of the first occurrence, or [-1]. *)
Fixpoint indexOf (x : string) (l : list string) : Z :=
  match l with
  | [] => -1
  | y :: l' =>
      if decide (y = x) then 0
      else let i := indexOf x l' in if decide (i < 0) then -1 else i + 1
  end.

(** [arr.splice(start, 1)]: a negative [start] counts from the end of the
    array (clamped at 0); a [start] beyond the end removes nothing. *)
Definition splice1 (start : Z) (l : list string) : list string :=
  let len := Z.of_nat (length l) in
  let i := if decide (start < 0) then Z.max (len + start) 0 else start in
  delete (Z.to_nat i) l.

(** ** The follower branch (lines 9-31) *)

(** The predicate given to [filter] (lines 17-20).  For [null] the optional
    chain [emittedValue?.info.sessionId] is [undefined], which is never
    [===] to a string. *)
Definition matchesFilter (sid : string) (v : Emitted) : bool :=
  match v with
  | ESession s => bool_decide (sessionId (info s) = sid)
  | EError message => bool_decide (message = sid)
  | ENull => false
  end.

(** Lines 25-31: what a follower does with the value it awaited.  It reads
    only its local [session], so the model runs it at the emission that
    resolves the follower's promise. *)
Definition followerResume (v : Emitted) : Task :=
  match v with
  | EError message => Thrown message
  | ESession s => Returned (Some s)
  | ENull => Returned None
  end.

(** One subscriber of [refreshedSubject] receiving [v]: [firstValueFrom]
    resolves on the first value that passes the filter and unsubscribes. *)
Definition deliver (v : Emitted) (t : Task) : Task :=
  match t with
  | AwaitSubject sid => if matchesFilter sid v then followerResume v else t
  | _ => t
  end.

(** [refreshedSubject.next(v)]: synchronous multicast to the subscribers. *)
Definition subject_next (v : Emitted) (s : State) : State :=
  {| refreshingSessions := refreshingSessions s;
     tasks := deliver v <$> tasks s;
     backendCalls := backendCalls s;
     emitted := emitted s ++ [v] |}.

(** ** The leader branch (lines 32-57) *)

(** [refreshingSessions.splice(refreshingSessions.indexOf(sessionId), 1)]. *)
Definition refreshing_remove (sid : string) (s : State) : State :=
  {| refreshingSessions :=
       splice1 (indexOf sid (refreshingSessions s)) (refreshingSessions s);
     tasks := tasks s;
     backendCalls := backendCalls s;
     emitted := emitted s |}.

(** [return v] of task [tid]. *)
Definition finish (tid : nat) (v : option Session) (s : State) : State :=
  {| refreshingSessions := refreshingSessions s;
     tasks := <[tid := Returned v]> (tasks s);
     backendCalls := backendCalls s;
     emitted := emitted s |}.

(** An exception that leaves the body of task [tid]: the promise of the
    [async] function is rejected with it. *)
Definition throws (tid : nat) (message : string) (s : State) : State :=
  {| refreshingSessions := refreshingSessions s;
     tasks := <[tid := Thrown message]> (tasks s);
     backendCalls := backendCalls s;
     emitted := emitted s |}.

(** [session!] as an emitted value: a missing session is emitted as is. *)
Definition emittedOf (session : option Session) : Emitted :=
  match session with
  | Some s => ESession s
  | None => ENull
  end.

(** The synchronous prefix of a call (lines 9-14 and 32-39).  The new task
    gets the next free index of [tasks].  Of the three parameters only
    [sessionId] takes part in the control flow: [storage] is handed on to
    [getSessionFromStorage] unread and [onNewRefreshToken] is not used, so
    a call is represented by its [sessionId]. *)
Definition call (sid : string) (s : State) : State :=
  if decide (indexOf sid (refreshingSessions s) > -1) then
    {| refreshingSessions := refreshingSessions s;
       tasks := tasks s ++ [AwaitSubject sid];
       backendCalls := backendCalls s;
       emitted := emitted s |}
  else
    {| refreshingSessions := refreshingSessions s ++ [sid];
       tasks := tasks s ++ [AwaitStorage sid];
       backendCalls := backendCalls s ++ [sid];
       emitted := emitted s |}.

(** The continuation of leader [tid] once its fetch has settled
    (lines 43-49 for a rejection, lines 51-56 otherwise).  In the catch
    block the [log.error] of line 44 comes first: when the conversion of
    the reason throws there, lines 45-48 are not reached. *)
Definition resume (tid : nat) (sid : string) (r : FetchResult) (s : State) : State :=
  match r with
  | RejectedUnprintable thrown => throws tid thrown s
  | Rejected _ =>
      finish tid None
        (refreshing_remove sid
           (subject_next ENull (subject_next (EError sid) s)))
  | Fetched session =>
      finish tid session
        (refreshing_remove sid
           (subject_next ENull (subject_next (emittedOf session) s)))
  end.

(** Summaries of [resume], used to state lemmas about it: whether the
    continuation gets to its emissions and its splice, the value it then
    emits first, and how the leader's call ends. *)
Definition printable (r : FetchResult) : bool :=
  match r with
  | Fetched _ | Rejected _ => true
  | RejectedUnprintable _ => false
  end.

Definition leaderEmits (sid : string) (r : FetchResult) : option Emitted :=
  match r with
  | Fetched session => Some (emittedOf session)
  | Rejected _ => Some (EError sid)
  | RejectedUnprintable _ => None
  end.

Definition leaderEnds (r : FetchResult) : Task :=
  match r with
  | Fetched session => Returned session
  | Rejected _ => Returned None
  | RejectedUnprintable thrown => Thrown thrown
  end.

(** ** The transition system *)

Inductive Event :=
  | ECall (sid : string)
  | ESettle (tid : nat) (r : FetchResult).

(** A fetch can only settle for a task that is awaiting it. *)
Definition step (s : State) (e : Event) : option State :=
  match e with
  | ECall sid => Some (call sid s)
  | ESettle tid r =>
      match tasks s !! tid with
      | Some (AwaitStorage sid) => Some (resume tid sid r s)
      | _ => None
      end
  end.

Fixpoint run (s : State) (es : list Event) : option State :=
  match es with
  | [] => Some s
  | e :: es' =>
      match step s e with
      | Some s' => run s' es'
      | None => None
      end
  end.

Definition reachable (s : State) : Prop := ∃ es, run init es = Some s.

(** Number of [getSessionFromStorage] calls made for [sid]. *)
Definition fetchCount (sid : string) (s : State) : nat :=
  length (filter (λ x, x = sid) (backendCalls s)).

(** Whether an event is a rejection whose reason cannot be printed. *)
Definition isUnprintable (e : Event) : bool :=
  match e with
  | ESettle _ r => negb (printable r)
  | ECall _ => false
  end.

(** Whether an event is the settling of the fetch of task [tid]. *)
Definition isSettleOf (tid : nat) (e : Event) : bool :=
  match e with
  | ESettle t _ => bool_decide (t = tid)
  | ECall _ => false
  end.

(** A run of emissions on the subject, oldest first. *)
Definition emitAll (vs : list Emitted) (s : State) : State :=
  foldl (λ s' v, subject_next v s') s vs.

(** The in-flight array holds, without repetition, the identifiers that
    tasks are fetching, and no two tasks fetch the same identifier. *)
Definition inFlightInv (s : State) : Prop :=
  NoDup (refreshingSessions s)
  ∧ (∀ tid sid, tasks s !! tid = Some (AwaitStorage sid) →
                sid ∈ refreshingSessions s)
  ∧ (∀ t1 t2 sid,
       tasks s !! t1 = Some (AwaitStorage sid) →
       tasks s !! t2 = Some (AwaitStorage sid) → t1 = t2).

End SessionHelper.

(** ** Express middlewares *)

Module Middleware.

(** A JavaScript [number] as these middlewares use it: an integer (an HTTP
    status code, a time in milliseconds) or [NaN], the time of an invalid
    [Date]. *)
Inductive number :=
  | Num (z : Z)
  | NaN.

(** Truthiness of a [number]: [0] and [NaN] are falsy. *)
Definition truthy (n : number) : bool :=
  match n with
  | Num z => negb (z =? 0)
  | NaN => false
  end.

(** [a < b] on numbers: every comparison with [NaN] is [false]. *)
Definition number_lt (a b : number) : bool :=
  match a, b with
  | Num x, Num y => x <? y
  | _, _ => false
  end.

(** Truthiness of a [string | undefined] property: [undefined] and the
    empty string are falsy. *)
Definition truthy_string (o : option string) : bool :=
  match o with
  | Some s => negb (bool_decide (s = EmptyString))
  | None => false
  end.

(** An [Error], or an [HttpError] (http-error.ts), which extends it with
    [statusCode]. *)
Inductive JsError :=
  | PlainError (message : string)
  | HttpError (message : string) (statusCode : number).

Definition message (e : JsError) : string :=
  match e with
  | PlainError m => m
  | HttpError m _ => m
  end.

(** What a middleware does to [res] and [next], in program order. *)
Inductive Action :=
  | Status (code : number)
  | Send (body : string)
  | CallNext.

(** error-handler.ts, lines 12-21 (the two [log.error] calls left out). *)
Definition errorHandler (error : JsError) : list Action :=
  match error with
  | HttpError m statusCode =>
      [Status (if truthy statusCode then statusCode else Num 500); Send m]
  | PlainError m =>
      [Status (Num 500); Send m]
  end.

(** The two properties of [req.session] (session-data.ts) that
    [validateAccessGrant] reads. *)
Record SessionData := mkSessionData {
  accessGrant : option string;
  accessGrantExpirationDate : option string
}.

Section ValidateAccessGrant.

(** [new Date(s).getTime()], which is [NaN] for an invalid date, and
    [Date.now()]. *)
Variable dateGetTime : string → number.
Variable now : Z.

(** vc-middleware.ts, [validateAccessGrant]. *)
Definition validateAccessGrant (session : SessionData) : list Action :=
  if negb (truthy_string (accessGrant session)) then
    [Status (Num 403); Send "No access grant for pod found."%string]
  else
    match accessGrantExpirationDate session with
    | Some d =>
        if truthy_string (Some d) && number_lt (dateGetTime d) (Num now) then
          [Status (Num 403); Send "Access grant for pod has expired."%string]
        else [CallNext]
    | None => [CallNext]
    end.

End ValidateAccessGrant.

End Middleware.

(** ** What the middlewares read from a request *)

Module Express.

Import SessionHelper Middleware.

(** [req.session] with the [solidSid] of session-data.ts next to the two
    properties of [SessionData] above.  [solidSid] is declared a [string]
    but is missing until the user has logged in, which is what the
    middlewares test. *)
Record ReqSession := mkReqSession {
  solidSid : option string;
  sessionData : SessionData
}.

(** [req.session?.solidSid] and [req.session?.accessGrant]. *)
Definition req_solidSid (session : option ReqSession) : option string :=
  session ≫= solidSid.

Definition req_accessGrant (session : option ReqSession) : option string :=
  session ≫= λ r, accessGrant (sessionData r).

(** [res.locals.session?.info?.webId] and
    [res.locals.session?.info?.isLoggedIn] ([undefined] is falsy). *)
Definition locals_webId (session : option Session) : option string :=
  session ≫= λ s, webId (info s).

Definition locals_isLoggedIn (session : option Session) : bool :=
  match session with
  | Some s => isLoggedIn (info s)
  | None => false
  end.

(** How a middleware that does not write to [res] hands over: [next()] or
    [next(error)]. *)
Inductive NextCall :=
  | NextOk
  | NextError (error : JsError).

(** A [try] block: its value, or what it threw. *)
Inductive Try (A : Type) :=
  | Ok (a : A)
  | Throw (error : JsError).
Arguments Ok {A} a.
Arguments Throw {A} error.

#[export] Instance Try_ret : MRet Try := λ A a, Ok a.
#[export] Instance Try_bind : MBind Try := λ A B f m,
  match m with
  | Ok a => f a
  | Throw e => Throw e
  end.

End Express.

(** ** session-middleware.ts *)

Module SessionMiddleware.

Import SessionHelper Middleware Express.

(** [res.status(401).send("Unauthorized")]. *)
Definition unauthorized : list Action :=
  [Status (Num 401); Send "Unauthorized"%string].

(** [getSessionMandatoryOrOptional], lines 68-81: without a [solidSid] the
    middleware is done at once; with one it calls
    [getSessionFromStorageWrapper] and is suspended on its promise. *)
Definition beforeAwait (mandatory : bool) (session : option ReqSession)
  : list Action + string :=
  match req_solidSid session with
  | Some sid =>
      if negb (truthy_string (Some sid)) then
        inl (if mandatory then unauthorized else [CallNext])
      else inr sid
  | None => inl (if mandatory then unauthorized else [CallNext])
  end.

(** The value of [await getSessionFromStorageWrapper(...).catch(() => {})]
    once the call has settled: the [undefined] of the empty handler when
    the call threw. *)
Definition caught (t : Task) : option (option Session) :=
  match t with
  | Returned v => Some v
  | Thrown _ => Some None
  | AwaitStorage _ | AwaitSubject _ => None
  end.

(** Lines 83-89, with [res.locals.session] just assigned. *)
Definition check (mandatory : bool) (session : option Session) : list Action :=
  if mandatory
     && (negb (truthy_string (locals_webId session))
         || negb (locals_isLoggedIn session))
  then unauthorized
  else [CallNext].

(** The continuation of the middleware: nothing while the call is pending,
    then the new [res.locals.session] and what is done to [res] and
    [next]. *)
Definition afterAwait (mandatory : bool) (t : Task)
  : option (option Session * list Action) :=
  v ← caught t; Some (v, check mandatory v).

(** The whole middleware against the state of the helper: either it is
    done at once and the helper is not entered, or it waits for the task
    its call has created. *)
Inductive Progress :=
  | Done (acts : list Action)
  | Waiting (tid : nat).

Definition getSessionMandatoryOrOptional (mandatory : bool)
    (session : option ReqSession) (s : State) : Progress * State :=
  match beforeAwait mandatory session with
  | inl acts => (Done acts, s)
  | inr sid => (Waiting (length (tasks s)), call sid s)
  end.

Definition getSession := getSessionMandatoryOrOptional true.
Definition getSessionMandatory := getSession.
Definition getSessionOptional := getSessionMandatoryOrOptional false.

End SessionMiddleware.

(** ** resource-helper.ts *)

Module ResourceHelper.

Import SessionHelper Middleware Express.

(** [validateSession]: [None] when it returns, [Some e] when it throws
    [e]. *)
Definition validateSession (locals_session : option Session)
    (session : option ReqSession) : option JsError :=
  if negb (truthy_string (locals_webId locals_session))
     || negb (locals_isLoggedIn locals_session)
     || negb (truthy_string (req_solidSid session))
  then Some (HttpError "No valid authenticated session found." (Num 401))
  else if negb (truthy_string (req_accessGrant session))
  then Some (HttpError "No valid access grant found for pod." (Num 500))
  else None.

(** An [UploadedFile] of express-fileupload and a DOM [File], as far as
    [convertUploadedFileToFile] reads and writes them. *)
Record UploadedFile := mkUploadedFile {
  uf_name : string;
  uf_data : string;
  uf_mimetype : string
}.

Record File := mkFile {
  fileBits : list string;
  fileName : string;
  fileType : string
}.

(** The [type] that the [File] constructor keeps from its [options]: the
    empty string if the given type has a character outside U+0020 to
    U+007E, and the given type in ASCII lower case otherwise. *)
Definition inTypeRange (c : ascii) : bool :=
  let n := N_of_ascii c in (32 <=? n)%N && (n <=? 126)%N.

Definition asciiLowercase (c : ascii) : ascii :=
  let n := N_of_ascii c in
  if (65 <=? n)%N && (n <=? 90)%N then ascii_of_N (n + 32) else c.

Fixpoint allInTypeRange (t : string) : bool :=
  match t with
  | EmptyString => true
  | String c t' => inTypeRange c && allInTypeRange t'
  end.

Fixpoint lowercase (t : string) : string :=
  match t with
  | EmptyString => EmptyString
  | String c t' => String (asciiLowercase c) (lowercase t')
  end.

Definition fileTypeOf (t : string) : string :=
  if allInTypeRange t then lowercase t else EmptyString.

(** [new File([uploadedFile.data], uploadedFile.name,
    {type: uploadedFile.mimetype})]. *)
Definition convertUploadedFileToFile (uploadedFile : UploadedFile) : File :=
  {| fileBits := [uf_data uploadedFile];
     fileName := uf_name uploadedFile;
     fileType := fileTypeOf (uf_mimetype uploadedFile) |}.

End ResourceHelper.

(** ** pod-middleware.ts *)

Module PodMiddleware.

Import SessionHelper Middleware Express.

Section GetPods.

(** [getPodUrlAll] of [@inrupt/solid-client]: the pod URLs of a WebID, or
    what the rejected promise carries. *)
Variable getPodUrlAll : string → Try (list string).

(** [getPodsMandatoryOrOptional]: the new [res.locals.pods], if it is
    assigned, and the call of [next]. *)
Definition getPodsMandatoryOrOptional (locals_session : option Session)
    (mandatory : bool) : option (list string) * NextCall :=
  if negb (truthy_string (locals_webId locals_session))
     || negb (locals_isLoggedIn locals_session)
  then
    if mandatory then
      (None, NextError (HttpError
         "[fetchPodsMandatoryOrOptional] Fetching Pods - but no valid authenticated session found."
         (Num 401)))
    else (None, NextOk)
  else
    let webId := default EmptyString (locals_webId locals_session) in
    match getPodUrlAll webId with
    | Throw error => (None, NextError error)
    | Ok userPods =>
        if bool_decide (length userPods = 0%nat) && mandatory then
          (None, NextError (HttpError
             ("[fetchPods] No Pods found for WebID [" +:+ webId +:+ "].")
             (Num 404)))
        else (Some userPods, NextOk)
    end.

Definition getPods (locals_session : option Session) :=
  getPodsMandatoryOrOptional locals_session true.

Definition getPodsMandatory (locals_session : option Session) :=
  getPods locals_session.

Definition getPodsOptional (locals_session : option Session) :=
  getPodsMandatoryOrOptional locals_session false.

End GetPods.

End PodMiddleware.

(** ** resource-middleware.ts *)

Module ResourceMiddleware.

Import SessionHelper Middleware Express ResourceHelper.

(** [req], as far as these middlewares read it.  A query parameter is a
    string or missing; [req.files] is missing, or maps field names to one
    uploaded file or to an array of them. *)
Record Request := mkRequest {
  session : option ReqSession;
  query : string → option string;
  body : string;
  files : option (list (string * (UploadedFile + list UploadedFile)))
}.

Section PodAccess.

(** The values of the libraries the middlewares hand around unread: a
    parsed [URL], a parsed access grant, a [SolidDataset], a file read from
    the pod. *)
Context {URL Grant Dataset Blob : Type}.

(** [new URL(s)], [JSON.parse(s)] and [turtleAsSolidDataset(s)], each with
    what it throws on a string it rejects. *)
Variable newURL : string → Try URL.
Variable jsonParse : string → Try Grant.
Variable turtleAsSolidDataset : string → Try Dataset.

(** The awaited operations of [this.podService]: how each one's promise
    settles.  [podService.writeFile] is not here, because its promise is
    never awaited.  The [correlationId] argument is left out. *)
Variable getSolidDataset : URL → Grant → Try Dataset.
Variable deleteSolidDataset : URL → Grant → Try unit.
Variable writeSolidDataset : URL → Dataset → Grant → Try unit.
Variable getFileFromPod : URL → Grant → Try Blob.

(** The calls made on [this.podService], in program order. *)
Inductive PodOp :=
  | OpGetSolidDataset (url : URL) (grant : Grant)
  | OpDeleteSolidDataset (url : URL) (grant : Grant)
  | OpWriteSolidDataset (url : URL) (dataset : Dataset) (grant : Grant)
  | OpGetFile (url : URL) (grant : Grant)
  | OpWriteFile (url : URL) (file : File) (grant : Grant).

(** The URL and the grant a call on the pod service is made with. *)
Definition opTarget (op : PodOp) : URL * Grant :=
  match op with
  | OpGetSolidDataset url grant
  | OpDeleteSolidDataset url grant
  | OpWriteSolidDataset url _ grant
  | OpGetFile url grant
  | OpWriteFile url _ grant => (url, grant)
  end.

Record Outcome := mkOutcome {
  podOps : list PodOp;
  handover : NextCall
}.

(** [validateSession(req, res)] inside a [try]. *)
Definition validated (locals_session : option Session) (req : Request)
  : Try unit :=
  match validateSession locals_session (session req) with
  | Some e => Throw e
  | None => Ok ()
  end.

(** [req.query[key]] with the [if (!...) throw new HttpError(message, 400)]
    that follows it. *)
Definition requiredParam (key message : string) (req : Request) : Try string :=
  match query req key with
  | Some v =>
      if negb (truthy_string (Some v)) then Throw (HttpError message (Num 400))
      else Ok v
  | None => Throw (HttpError message (Num 400))
  end.

(** The message of [getResource], [writeResource] and [getFile], and that
    of [writeFile]. *)
Definition resourceUrlRequired (key : string) : string :=
  "The middleware retrieveResource requires a resource URL to be provided as a query parameter with key ["
  +:+ key +:+ "].".

Definition fileUrlRequired (key : string) : string :=
  "The middleware writeFile requires a file URL to be provided as a query parameter with key ["
  +:+ key +:+ "].".

(** [JSON.parse(req.session.accessGrant!)]; [JSON.parse] turns a missing
    argument into the string ["undefined"]. *)
Definition parsedGrant (req : Request) : Try Grant :=
  jsonParse (default "undefined"%string (req_accessGrant (session req))).

(** [getResource]: the new [res.locals.solidDataset], if it is assigned,
    the calls on the pod service and the call of [next]. *)
Definition getResource (resourceUrlParameterKey : string)
    (req : Request) (locals_session : option Session)
  : option Dataset * Outcome :=
  match
    (_ ← validated locals_session req;
     resourceIri ←
       requiredParam resourceUrlParameterKey
         (resourceUrlRequired resourceUrlParameterKey) req;
     accessGrant ← parsedGrant req;
     url ← newURL resourceIri;
     Ok (url, accessGrant))
  with
  | Throw error => (None, {| podOps := []; handover := NextError error |})
  | Ok (url, accessGrant) =>
      let ops := [OpGetSolidDataset url accessGrant] in
      match getSolidDataset url accessGrant with
      | Throw error => (None, {| podOps := ops; handover := NextError error |})
      | Ok dataset => (Some dataset, {| podOps := ops; handover := NextOk |})
      end
  end.

(** [writeResource].  The second call evaluates [new URL(resourceUrl)] and
    [turtleAsSolidDataset(req.body)] again, as its arguments, after the
    first call has been awaited. *)
Definition writeResource (resourceUrlParameterKey : string)
    (req : Request) (locals_session : option Session) : Outcome :=
  match
    (_ ← validated locals_session req;
     resourceUrl ←
       requiredParam resourceUrlParameterKey
         (resourceUrlRequired resourceUrlParameterKey) req;
     accessGrant ← parsedGrant req;
     url ← newURL resourceUrl;
     Ok (resourceUrl, url, accessGrant))
  with
  | Throw error => {| podOps := []; handover := NextError error |}
  | Ok (resourceUrl, url, accessGrant) =>
      let deleted := [OpDeleteSolidDataset url accessGrant] in
      match deleteSolidDataset url accessGrant with
      | Throw error => {| podOps := deleted; handover := NextError error |}
      | Ok _ =>
          match
            (url' ← newURL resourceUrl;
             dataset ← turtleAsSolidDataset (body req);
             Ok (url', dataset))
          with
          | Throw error => {| podOps := deleted; handover := NextError error |}
          | Ok (url', dataset) =>
              let ops :=
                deleted ++ [OpWriteSolidDataset url' dataset accessGrant] in
              match writeSolidDataset url' dataset accessGrant with
              | Throw error => {| podOps := ops; handover := NextError error |}
              | Ok _ => {| podOps := ops; handover := NextOk |}
              end
          end
      end
  end.

(** [getFile]. *)
Definition getFile (fileUrlParameterKey : string)
    (req : Request) (locals_session : option Session)
  : option Blob * Outcome :=
  match
    (_ ← validated locals_session req;
     resourceIri ←
       requiredParam fileUrlParameterKey
         (resourceUrlRequired fileUrlParameterKey) req;
     accessGrant ← parsedGrant req;
     url ← newURL resourceIri;
     Ok (url, accessGrant))
  with
  | Throw error => (None, {| podOps := []; handover := NextError error |})
  | Ok (url, accessGrant) =>
      let ops := [OpGetFile url accessGrant] in
      match getFileFromPod url accessGrant with
      | Throw error => (None, {| podOps := ops; handover := NextError error |})
      | Ok file => (Some file, {| podOps := ops; handover := NextOk |})
      end
  end.

(** The two tests on [req.files] in [writeFile], and the file they let
    through: [Object.values(req.files)[0]]. *)
Definition singleUpload (req : Request) : Try UploadedFile :=
  match files req with
  | None =>
      Throw (HttpError
        "No files are uploaded, or the express-fileupload module should be included."
        (Num 400))
  | Some fields =>
      match snd <$> fields with
      | [inl uploadedFile] => Ok uploadedFile
      | _ => Throw (HttpError "One file should be uploaded." (Num 400))
      end
  end.

(** [writeFile].  [podService.writeFile] is taken to return a promise,
    like the operations that are awaited; here the promise is dropped, so
    the middleware goes on to [next()] without waiting for it and never
    sees how it settles. *)
Definition writeFile (fileUrlParameterKey : string)
    (req : Request) (locals_session : option Session) : Outcome :=
  match
    (_ ← validated locals_session req;
     fileUrl ←
       requiredParam fileUrlParameterKey
         (fileUrlRequired fileUrlParameterKey) req;
     uploadedFile ← singleUpload req;
     accessGrant ← parsedGrant req;
     url ← newURL fileUrl;
     Ok (url, convertUploadedFileToFile uploadedFile, accessGrant))
  with
  | Throw error => {| podOps := []; handover := NextError error |}
  | Ok (url, file, accessGrant) =>
      {| podOps := [OpWriteFile url file accessGrant]; handover := NextOk |}
  end.

End PodAccess.

End ResourceMiddleware.

(** * Properties of the session helper *)

Import SessionHelper.

Section ArrayLemmas.

Implicit Types (x y : string) (l : list string).

Lemma indexOf_lower x l : -1 ≤ indexOf x l.
Proof.
  induction l as [|y l IH]; simpl; [lia|].
  repeat case_decide; lia.
Qed.

Lemma indexOf_elem x l : indexOf x l > -1 ↔ x ∈ l.
Proof.
  induction l as [|y l IH]; simpl.
  - split; [lia | by intros ?%elem_of_nil].
  - rewrite elem_of_cons. pose proof (indexOf_lower x l).
    destruct (decide (y = x)) as [->|Hne].
    + split; [by left | lia].
    + case_decide.
      * split; [lia|]. intros [->|Hin]; [done|]. apply IH in Hin. lia.
      * split; [|lia]. intros _. right. apply IH. lia.
Qed.

Lemma indexOf_absent x l : x ∉ l → indexOf x l = -1.
Proof.
  intros Hx. pose proof (indexOf_lower x l).
  destruct (decide (indexOf x l > -1)) as [Hi|Hi]; [|lia].
  by apply indexOf_elem in Hi.
Qed.

(** Where [indexOf] points when the element is there: at its first
    occurrence. *)
Lemma indexOf_first x l1 l2 :
  x ∉ l1 → indexOf x (l1 ++ x :: l2) = Z.of_nat (length l1).
Proof.
  induction l1 as [|y l1 IH]; simpl; intros Hx.
  - by rewrite decide_True.
  - apply not_elem_of_cons in Hx as [Hne Hx].
    rewrite decide_False by congruence.
    rewrite IH by done. case_decide; lia.
Qed.

Lemma splice1_first x l1 l2 :
  x ∉ l1 → splice1 (indexOf x (l1 ++ x :: l2)) (l1 ++ x :: l2) = l1 ++ l2.
Proof.
  intros Hx. rewrite indexOf_first by done. unfold splice1.
  rewrite decide_False by lia. rewrite Nat2Z.id.
  induction l1 as [|y l1 IH]; simpl; [done|].
  f_equal. apply IH. by apply not_elem_of_cons in Hx as [_ ?].
Qed.

(** On an array without duplicates, [splice(indexOf(x), 1)] removes [x]
    and nothing else. *)
Lemma splice1_indexOf_NoDup x l :
  x ∈ l → NoDup l →
  let l' := splice1 (indexOf x l) l in
  l ≡ₚ x :: l' ∧ (x ∉ l') ∧ NoDup l'.
Proof.
  intros Hin Hnd.
  apply list_elem_of_split_l in Hin as (l1 & l2 & -> & Hx).
  simpl. rewrite splice1_first by done.
  apply NoDup_app in Hnd as (Hnd1 & Hdisj & Hnd2).
  apply NoDup_cons in Hnd2 as [Hx2 Hnd2].
  split_and!.
  - by rewrite Permutation_middle.
  - rewrite elem_of_app. tauto.
  - apply NoDup_app. split_and!; [done| |done].
    intros y Hy1 Hy2. apply (Hdisj y Hy1). by right.
Qed.

End ArrayLemmas.

(** ** What one step does to the tasks *)

Section TaskLemmas.

Implicit Types (s : State) (sid : string) (tid j : nat) (v : Emitted).

Lemma deliver_null (t : Task) : deliver ENull t = t.
Proof. by destruct t. Qed.

Lemma deliver_null_all (ts : list Task) : deliver ENull <$> ts = ts.
Proof.
  induction ts as [|t ts IH]; [done|].
  by rewrite fmap_cons, deliver_null, IH.
Qed.

Lemma resume_tasks tid sid r s :
  tasks (resume tid sid r s)
  = <[tid := leaderEnds r]>
      match leaderEmits sid r with
      | Some v => deliver v <$> tasks s
      | None => tasks s
      end.
Proof. destruct r; simpl; by rewrite ?deliver_null_all. Qed.

Lemma resume_refreshing tid sid r s :
  refreshingSessions (resume tid sid r s)
  = if printable r
    then splice1 (indexOf sid (refreshingSessions s)) (refreshingSessions s)
    else refreshingSessions s.
Proof. by destruct r. Qed.

Lemma resume_backendCalls tid sid r s :
  backendCalls (resume tid sid r s) = backendCalls s.
Proof. by destruct r. Qed.

Lemma resume_emitted tid sid r s :
  emitted (resume tid sid r s)
  = emitted s ++ match leaderEmits sid r with
                 | Some v => [v; ENull]
                 | None => []
                 end.
Proof. destruct r; simpl; by rewrite <- ?app_assoc, ?app_nil_r. Qed.

Lemma resume_leader tid sid r s :
  tasks s !! tid = Some (AwaitStorage sid) →
  tasks (resume tid sid r s) !! tid = Some (leaderEnds r).
Proof.
  intros Ht. rewrite resume_tasks. apply list_lookup_insert_eq.
  assert (tid < length (tasks s))%nat by by eapply lookup_lt_Some.
  destruct (leaderEmits sid r); [by rewrite length_fmap|done].
Qed.

Lemma resume_other tid sid r s j :
  j ≠ tid →
  tasks (resume tid sid r s) !! j
  = match leaderEmits sid r with
    | Some v => deliver v <$> tasks s !! j
    | None => tasks s !! j
    end.
Proof.
  intros Hne. rewrite resume_tasks, list_lookup_insert_ne by done.
  destruct (leaderEmits sid r); [apply list_lookup_fmap|done].
Qed.

(** A rejection whose reason cannot be printed changes nothing but the
    leader's own task. *)
Lemma resume_unprintable tid sid thrown s :
  resume tid sid (RejectedUnprintable thrown) s = throws tid thrown s.
Proof. done. Qed.

(** A settling fetch never touches another task that awaits the store. *)
Lemma resume_awaitStorage tid sid r s j sid' :
  j ≠ tid →
  tasks (resume tid sid r s) !! j = Some (AwaitStorage sid')
  ↔ tasks s !! j = Some (AwaitStorage sid').
Proof.
  intros Hne. rewrite resume_other by done.
  destruct (leaderEmits sid r) as [v|]; [|done].
  destruct (tasks s !! j) as [t|]; simpl; [|done].
  destruct t as [x|x| |]; simpl; try done.
  destruct (matchesFilter x v); [|done].
  destruct v; simpl; split; intros; simplify_eq.
Qed.

Lemma call_in_flight sid s :
  sid ∈ refreshingSessions s →
  call sid s =
    {| refreshingSessions := refreshingSessions s;
       tasks := tasks s ++ [AwaitSubject sid];
       backendCalls := backendCalls s;
       emitted := emitted s |}.
Proof. intros Hin. unfold call. by rewrite decide_True by by apply indexOf_elem. Qed.

Lemma call_not_in_flight sid s :
  sid ∉ refreshingSessions s →
  call sid s =
    {| refreshingSessions := refreshingSessions s ++ [sid];
       tasks := tasks s ++ [AwaitStorage sid];
       backendCalls := backendCalls s ++ [sid];
       emitted := emitted s |}.
Proof.
  intros Hin. unfold call. rewrite decide_False; [done|].
  by rewrite indexOf_elem.
Qed.

Lemma step_settle tid sid r s :
  tasks s !! tid = Some (AwaitStorage sid) →
  step s (ESettle tid r) = Some (resume tid sid r s).
Proof. intros Ht. simpl. by rewrite Ht. Qed.

Lemma step_settle_inv tid r s s' :
  step s (ESettle tid r) = Some s' →
  ∃ sid, tasks s !! tid = Some (AwaitStorage sid) ∧ s' = resume tid sid r s.
Proof.
  simpl. destruct (tasks s !! tid) as [[sid|?|?|?]|]; intros; simplify_eq.
  by exists sid.
Qed.

Lemma run_app s es1 es2 :
  run s (es1 ++ es2) = run s es1 ≫= λ s1, run s1 es2.
Proof.
  revert s. induction es1 as [|e es1 IH]; intros s; simpl; [done|].
  destruct (step s e); simpl; [apply IH|done].
Qed.

Lemma run_snoc s es e s1 :
  run s es = Some s1 → run s (es ++ [e]) = step s1 e.
Proof.
  intros Hr. rewrite run_app, Hr. simpl. by destruct (step s1 e).
Qed.

End TaskLemmas.

(** ** The in-flight invariant *)

Section Invariant.

Implicit Types (s : State) (sid : string) (tid : nat).

Lemma inv_init : inFlightInv init.
Proof.
  split_and!; simpl.
  - constructor.
  - intros ? ? ?; done.
  - intros ? ? ? ?; done.
Qed.

Lemma inv_call sid s : inFlightInv s → inFlightInv (call sid s).
Proof.
  intros (Hnd & Hin & Huniq).
  destruct (decide (sid ∈ refreshingSessions s)) as [Hs|Hs].
  - rewrite call_in_flight by done. split_and!; simpl; [done| |].
    + intros t x [[_ H]|[_ ?]]%lookup_snoc_Some; [by eapply Hin|discriminate].
    + intros t1 t2 x [[_ H1]|[_ ?]]%lookup_snoc_Some
        [[_ H2]|[_ ?]]%lookup_snoc_Some; try discriminate.
      by eapply Huniq.
  - rewrite call_not_in_flight by done. split_and!; simpl.
    + apply NoDup_app. split_and!; [done| |apply NoDup_singleton].
      intros x Hx ->%list_elem_of_singleton. done.
    + intros t x [[_ H]|[_ E]]%lookup_snoc_Some; rewrite elem_of_app.
      * left. by eapply Hin.
      * right. apply list_elem_of_singleton. congruence.
    + assert (∀ t, tasks s !! t ≠ Some (AwaitStorage sid)) as Hfresh.
      { intros t Ht. apply Hs. by eapply Hin. }
      intros t1 t2 x [[_ H1]|[-> E1]]%lookup_snoc_Some
        [[_ H2]|[-> E2]]%lookup_snoc_Some; simplify_eq.
      * by eapply Huniq.
      * by destruct (Hfresh t1).
      * by destruct (Hfresh t2).
      * done.
Qed.

Lemma leaderEnds_settled r sid : leaderEnds r ≠ AwaitStorage sid.
Proof. by destruct r. Qed.

Lemma inv_resume tid sid r s :
  inFlightInv s →
  tasks s !! tid = Some (AwaitStorage sid) →
  inFlightInv (resume tid sid r s).
Proof.
  intros (Hnd & Hin & Huniq) Ht.
  assert (sid ∈ refreshingSessions s) as Hs by by eapply Hin.
  destruct (splice1_indexOf_NoDup sid _ Hs Hnd) as (Hperm & Hgone & Hnd').
  assert (∀ t x, tasks (resume tid sid r s) !! t = Some (AwaitStorage x) →
            t ≠ tid ∧ tasks s !! t = Some (AwaitStorage x)) as Hold.
  { intros t x Hx. destruct (decide (t = tid)) as [->|Hne].
    - rewrite (resume_leader _ _ _ _ Ht) in Hx. injection Hx as Hx.
      by destruct (leaderEnds_settled r x).
    - split; [done|]. by apply resume_awaitStorage in Hx. }
  split_and!; rewrite ?resume_refreshing.
  - by destruct (printable r).
  - intros t x [Hne Hx]%Hold.
    assert (x ≠ sid) as Hxs.
    { intros ->. by destruct Hne; eapply Huniq. }
    assert (x ∈ refreshingSessions s) as Hx' by by eapply Hin.
    destruct (printable r); [|done].
    rewrite Hperm in Hx'. by apply elem_of_cons in Hx' as [?|?].
  - intros t1 t2 x [_ H1]%Hold [_ H2]%Hold. by eapply Huniq.
Qed.

Lemma inv_step s e s' : inFlightInv s → step s e = Some s' → inFlightInv s'.
Proof.
  intros Hinv. destruct e as [sid|tid r].
  - intros [= <-]. by apply inv_call.
  - intros (sid & Ht & ->)%step_settle_inv. by apply inv_resume.
Qed.

Lemma inv_run s es s' : inFlightInv s → run s es = Some s' → inFlightInv s'.
Proof.
  revert s. induction es as [|e es IH]; intros s Hinv; simpl.
  - by intros [= <-].
  - destruct (step s e) as [s1|] eqn:Hs; [|done].
    apply IH. by eapply inv_step.
Qed.

Lemma reachable_inv s : reachable s → inFlightInv s.
Proof. intros [es Hes]. eapply inv_run; [apply inv_init|done]. Qed.

Lemma reachable_step s e s' : reachable s → step s e = Some s' → reachable s'.
Proof.
  intros [es Hes] Hs. exists (es ++ [e]). by rewrite (run_snoc _ _ _ _ Hes).
Qed.

Lemma reachable_run s es s' : reachable s → run s es = Some s' → reachable s'.
Proof.
  intros [es0 Hes] Hs. exists (es0 ++ es). by rewrite run_app, Hes.
Qed.

(** The continuation of a leader removes exactly its own entry. *)
Lemma resume_removes s tid sid r :
  reachable s →
  tasks s !! tid = Some (AwaitStorage sid) →
  printable r = true →
  let l' := refreshingSessions (resume tid sid r s) in
  refreshingSessions s ≡ₚ sid :: l' ∧ (sid ∉ l') ∧ NoDup l'.
Proof.
  intros (Hnd & Hin & _)%reachable_inv Ht Hr. simpl.
  rewrite resume_refreshing, Hr.
  apply splice1_indexOf_NoDup; [|done]. by eapply Hin.
Qed.

End Invariant.

(** ** One fetch per cycle *)

Section FetchCycle.

Implicit Types (s t : State) (sid : string) (tid : nat) (es : list Event).

Lemma fetchCount_call_in_flight sid x s :
  x ∈ refreshingSessions s → fetchCount sid (call x s) = fetchCount sid s.
Proof. intros Hx. by rewrite call_in_flight. Qed.

Lemma fetchCount_call_leader sid s :
  sid ∉ refreshingSessions s → fetchCount sid (call sid s) = S (fetchCount sid s).
Proof.
  intros Hx. rewrite call_not_in_flight by done. unfold fetchCount. simpl.
  rewrite filter_app, length_app, filter_cons_True by done. simpl. lia.
Qed.

Lemma fetchCount_call_other sid x s :
  x ≠ sid → fetchCount sid (call x s) = fetchCount sid s.
Proof.
  intros Hne. unfold call, fetchCount. case_decide; simpl; [done|].
  rewrite filter_app, length_app, filter_cons_False by done. simpl. lia.
Qed.

Lemma fetchCount_resume sid tid x r s :
  fetchCount sid (resume tid x r s) = fetchCount sid s.
Proof. unfold fetchCount. by rewrite resume_backendCalls. Qed.

Lemma call_keeps_task x s tid (t : Task) :
  tasks s !! tid = Some t → tasks (call x s) !! tid = Some t.
Proof.
  intros Ht. unfold call. case_decide; simpl; by apply lookup_app_l_Some.
Qed.

(** While the fetch of leader [tid] has not settled, the leader stays
    suspended, its identifier stays in flight, and nobody fetches it again,
    whatever else happens. *)
Lemma pending_preserved t tid sid es t1 :
  inFlightInv t →
  tasks t !! tid = Some (AwaitStorage sid) →
  existsb (isSettleOf tid) es = false →
  run t es = Some t1 →
  tasks t1 !! tid = Some (AwaitStorage sid)
  ∧ fetchCount sid t1 = fetchCount sid t
  ∧ inFlightInv t1.
Proof.
  revert t. induction es as [|e es IH]; intros t Hinv Ht Hes; simpl.
  { by intros [= <-]. }
  simpl in Hes. apply orb_false_iff in Hes as [He Hes].
  destruct (step t e) as [t'|] eqn:Hstep; [|done]. intros Hrun.
  assert (inFlightInv t') as Hinv' by by eapply inv_step.
  assert (tasks t' !! tid = Some (AwaitStorage sid)
          ∧ fetchCount sid t' = fetchCount sid t) as [Ht' Hc].
  { destruct e as [x|tid' r].
    - injection Hstep as <-. split; [by apply call_keeps_task|].
      destruct (decide (x = sid)) as [->|Hne].
      + apply fetchCount_call_in_flight.
        destruct Hinv as (_ & Hin & _). by eapply Hin.
      + by apply fetchCount_call_other.
    - apply step_settle_inv in Hstep as (x & Hx & ->).
      simpl in He. apply bool_decide_eq_false in He.
      split; [by apply resume_awaitStorage|apply fetchCount_resume]. }
  destruct (IH t' Hinv' Ht' Hes Hrun) as (? & ? & ?).
  split_and!; [done|congruence|done].
Qed.

(** C1: In a fetch cycle for [sid] (it starts with a call that finds [sid]
    not in flight, and lasts until the fetch of that call settles) the
    backing store is asked for [sid] exactly once, by the first caller,
    however many calls for [sid] or for other identifiers arrive meanwhile:
    a caller for [sid] arriving during the cycle subscribes and waits
    without fetching, and the count is still one when the fetch settles. *)
Theorem C1_single_fetch_per_cycle s sid es s1 :
  reachable s →
  sid ∉ refreshingSessions s →
  existsb (isSettleOf (length (tasks s))) es = false →
  run s (ECall sid :: es) = Some s1 →
  let leader := length (tasks s) in
  (∃ s0, step s (ECall sid) = Some s0
         ∧ backendCalls s0 = backendCalls s ++ [sid]
         ∧ tasks s0 !! leader = Some (AwaitStorage sid))
  ∧ fetchCount sid s1 = S (fetchCount sid s)
  ∧ tasks s1 !! leader = Some (AwaitStorage sid)
  ∧ sid ∈ refreshingSessions s1
  ∧ (∃ s2, step s1 (ECall sid) = Some s2
           ∧ backendCalls s2 = backendCalls s1
           ∧ tasks s2 = tasks s1 ++ [AwaitSubject sid])
  ∧ (∀ r, ∃ s2, step s1 (ESettle leader r) = Some s2
                ∧ fetchCount sid s2 = S (fetchCount sid s)).
Proof.
  intros Hreach Hfree Hes Hrun leader. simpl in Hrun.
  assert (inFlightInv (call sid s)) as Hinv
    by (apply inv_call; by apply reachable_inv).
  assert (tasks (call sid s) !! leader = Some (AwaitStorage sid)) as Hlead.
  { rewrite call_not_in_flight by done. simpl. by apply list_lookup_middle. }
  destruct (pending_preserved _ _ _ _ _ Hinv Hlead Hes Hrun)
    as (Ht1 & Hc1 & Hinv1).
  rewrite fetchCount_call_leader in Hc1 by done.
  assert (sid ∈ refreshingSessions s1) as Hin1.
  { destruct Hinv1 as (_ & Hin & _). by eapply Hin. }
  split_and!; [|done..| |].
  - exists (call sid s). split; [done|]. split; [|done].
    by rewrite call_not_in_flight.
  - exists (call sid s1). split; [done|]. by rewrite call_in_flight.
  - intros r. exists (resume leader sid r s1).
    split; [by apply step_settle|]. by rewrite fetchCount_resume.
Qed.

(** X24: At any time the in-flight array holds each identifier at most
    once.  A call that finds its identifier absent appends it and is then
    suspended on the store; a call that finds it present leaves the array
    alone.  When the fetch of a leader settles, whatever else is waiting,
    exactly its one entry is removed, unless the fetch was rejected with a
    reason that cannot be printed: then the array is left as it is. *)
Theorem in_flight_set s :
  reachable s →
  NoDup (refreshingSessions s)
  ∧ (∀ sid, sid ∉ refreshingSessions s →
       ∃ s', step s (ECall sid) = Some s'
             ∧ refreshingSessions s' = refreshingSessions s ++ [sid]
             ∧ tasks s' !! length (tasks s) = Some (AwaitStorage sid))
  ∧ (∀ sid, sid ∈ refreshingSessions s →
       ∃ s', step s (ECall sid) = Some s'
             ∧ refreshingSessions s' = refreshingSessions s)
  ∧ (∀ tid sid r, tasks s !! tid = Some (AwaitStorage sid) →
       ∃ s', step s (ESettle tid r) = Some s'
             ∧ match r with
               | Fetched _ | Rejected _ =>
                   refreshingSessions s ≡ₚ sid :: refreshingSessions s'
                   ∧ (sid ∉ refreshingSessions s')
                   ∧ NoDup (refreshingSessions s')
               | RejectedUnprintable _ =>
                   refreshingSessions s' = refreshingSessions s
               end).
Proof.
  intros Hreach. pose proof (reachable_inv _ Hreach) as (Hnd & Hin & Huniq).
  split_and!; [done| | |].
  - intros sid Hs. exists (call sid s). split; [done|].
    rewrite call_not_in_flight by done. simpl.
    split; [done|]. by apply list_lookup_middle.
  - intros sid Hs. exists (call sid s). split; [done|].
    by rewrite call_in_flight.
  - intros tid sid r Ht. exists (resume tid sid r s).
    split; [by apply step_settle|].
    destruct r; [by apply resume_removes..|done].
Qed.

(** C2 (the code falls short of it): A call for ["s"] whose fetch is
    rejected with a reason that has no string conversion.  The template
    literal of line 44 throws inside the catch block, so the splice of
    line 47 is not reached: the fetch has settled and the leader's call has
    ended, by throwing, but ["s"] is still in the in-flight array. *)
Theorem C2_unprintable_rejection_keeps_id :
  ∃ s', run init
          [ECall "s";
           ESettle 0 (RejectedUnprintable
                        "Cannot convert a Symbol value to a string")]
        = Some s'
    ∧ tasks s' = [Thrown "Cannot convert a Symbol value to a string"]
    ∧ refreshingSessions s' = ["s"].
Proof. eexists. by split_and!. Qed.

End FetchCycle.

(** ** What the callers of one cycle get *)

Section Outcomes.

Implicit Types (s : State) (sid : string) (tid j : nat).

Lemma matchesFilter_spec sid v :
  matchesFilter sid v = true
  ↔ (∃ session, v = ESession session ∧ sessionId (info session) = sid)
    ∨ v = EError sid.
Proof.
  destruct v as [session|m|]; simpl; rewrite ?bool_decide_eq_true.
  - split; [intros <-; left; by exists session|].
    by intros [(? & [= <-] & ?)|?].
  - split; [intros <-; by right|]. by intros [(? & ? & ?)|[= <-]].
  - split; [done|]. by intros [(? & ? & ?)|?].
Qed.

(** A successful fetch of the session it was asked for resolves the leader
    and every waiting follower with that one session. *)
Lemma success_shared s tid sid session :
  tasks s !! tid = Some (AwaitStorage sid) →
  sessionId (info session) = sid →
  ∃ s', step s (ESettle tid (Fetched (Some session))) = Some s'
    ∧ tasks s' !! tid = Some (Returned (Some session))
    ∧ (∀ j, tasks s !! j = Some (AwaitSubject sid) →
            tasks s' !! j = Some (Returned (Some session))).
Proof.
  intros Ht Hid. eexists. split; [by apply step_settle|].
  split; [by apply resume_leader|]. intros j Hj.
  rewrite resume_other by congruence. rewrite Hj. simpl.
  by rewrite bool_decide_true.
Qed.

(** C3 (the code falls short of it): Two calls for the same identifier, the
    second while the first is fetching; the store then answers that there
    is no such session.  The leader returns [null]; the follower does not:
    the [null] that the leader emits is rejected by the follower's filter
    like a reset marker, so the follower is still suspended on the
    subject after the cycle is over and its identifier has left the
    in-flight array. *)
Theorem C3_not_found_strands_follower :
  ∃ s', run init [ECall "s"; ECall "s"; ESettle 0 (Fetched None)] = Some s'
    ∧ tasks s' !! 0%nat = Some (Returned None)
    ∧ tasks s' !! 1%nat = Some (AwaitSubject "s")
    ∧ refreshingSessions s' = []
    ∧ emitted s' = [ENull; ENull].
Proof. eexists. by split_and!. Qed.

(** C4 (the code falls short of it): Two calls for ["s"], the second
    while the first is fetching; the fetch is rejected with a reason that
    has no string conversion.  The template literal of line 44 throws
    inside the catch block, before anything is emitted: the leader's call
    does not return [null] but throws, and the follower gets no failure, it
    stays suspended on the subject. *)
Theorem C4_unprintable_rejection_leader_throws :
  ∃ s', run init
          [ECall "s"; ECall "s";
           ESettle 0 (RejectedUnprintable
                        "Cannot convert a Symbol value to a string")]
        = Some s'
    ∧ tasks s' !! 0%nat
      = Some (Thrown "Cannot convert a Symbol value to a string")
    ∧ tasks s' !! 1%nat = Some (AwaitSubject "s").
Proof. eexists. by split_and!. Qed.

(** X25: When the fetch of a leader is rejected with a reason that can be
    printed, the leader's own call returns [null] (it does not throw), and
    the call of every follower waiting for that identifier throws an error
    whose message is the identifier. *)
Theorem rejection_asymmetry s tid sid error :
  tasks s !! tid = Some (AwaitStorage sid) →
  ∃ s', step s (ESettle tid (Rejected error)) = Some s'
    ∧ tasks s' !! tid = Some (Returned None)
    ∧ (∀ j, tasks s !! j = Some (AwaitSubject sid) →
            tasks s' !! j = Some (Thrown sid)).
Proof.
  intros Ht. eexists. split; [by apply step_settle|].
  split; [by apply (resume_leader _ _ (Rejected error))|]. intros j Hj.
  rewrite resume_other by congruence. rewrite Hj. simpl.
  by rewrite bool_decide_true.
Qed.

Lemma emitAll_cons v vs s : emitAll (v :: vs) s = emitAll vs (subject_next v s).
Proof. done. Qed.

Lemma emitAll_settled vs s j (t : Task) :
  tasks s !! j = Some t →
  (∀ sid, t ≠ AwaitSubject sid) →
  tasks (emitAll vs s) !! j = Some t.
Proof.
  revert s. induction vs as [|v vs IH]; intros s Hj Ht; [done|].
  rewrite emitAll_cons. apply IH; [|done]. simpl.
  rewrite list_lookup_fmap, Hj. simpl. f_equal.
  destruct t; try done. by destruct (Ht sid).
Qed.

(** C5: A follower waiting for [sid] accepts a notification exactly when
    it is a session whose [info.sessionId] is [sid] or an error whose
    message is [sid].  Over any run of notifications it is resolved by the
    first one it accepts, and by that one only; the others (sessions and
    errors for other identifiers, reset markers) are passed over, and while
    none is accepted the follower stays suspended. *)
Theorem C5_follower_wait s j sid vs :
  tasks s !! j = Some (AwaitSubject sid) →
  (∀ v, matchesFilter sid v = true
        ↔ (∃ session, v = ESession session ∧ sessionId (info session) = sid)
          ∨ v = EError sid)
  ∧ tasks (emitAll vs s) !! j
    = Some (match find (matchesFilter sid) vs with
            | Some v => followerResume v
            | None => AwaitSubject sid
            end).
Proof.
  intros Hj. split; [apply matchesFilter_spec|].
  revert s Hj. induction vs as [|v vs IH]; intros s Hj; [done|].
  rewrite emitAll_cons. simpl.
  assert (tasks (subject_next v s) !! j
          = Some (if matchesFilter sid v then followerResume v
                  else AwaitSubject sid)) as Hj'.
  { simpl. by rewrite list_lookup_fmap, Hj. }
  destruct (matchesFilter sid v) eqn:Hm.
  - apply emitAll_settled; [done|].
    apply matchesFilter_spec in Hm as [(? & -> & _)| ->]; done.
  - by apply IH.
Qed.

(** C6 (the code falls short of it): A call for ["s"] whose fetch is
    rejected with a reason that has no string conversion.  The cycle is
    over, the leader's call has ended, and nothing was emitted: the
    template literal of line 44 throws before the two [next] calls of
    lines 45 and 46. *)
Theorem C6_unprintable_rejection_emits_nothing :
  ∃ s', run init
          [ECall "s";
           ESettle 0 (RejectedUnprintable
                        "Cannot convert a Symbol value to a string")]
        = Some s'
    ∧ tasks s' !! 0%nat
      = Some (Thrown "Cannot convert a Symbol value to a string")
    ∧ emitted s' = [].
Proof. eexists. by split_and!. Qed.

(** X26: The continuation of a leader emits two values and no more: first
    the outcome of its fetch (the session, the [null] of a session that
    was not found, or an error whose message is the identifier), then
    [null]; or it emits nothing at all, when the fetch was rejected with a
    reason that cannot be printed.  The synchronous prefix of a call emits
    nothing. *)
Theorem continuation_emissions s tid sid r :
  tasks s !! tid = Some (AwaitStorage sid) →
  (∃ s', step s (ESettle tid r) = Some s'
     ∧ emitted s' = emitted s ++
         match r with
         | Fetched (Some session) => [ESession session; ENull]
         | Fetched None => [ENull; ENull]
         | Rejected _ => [EError sid; ENull]
         | RejectedUnprintable _ => []
         end)
  ∧ (∀ x, ∃ s', step s (ECall x) = Some s' ∧ emitted s' = emitted s).
Proof.
  intros Ht. split.
  - eexists. split; [by apply step_settle|].
    rewrite resume_emitted. by destruct r as [[?|]|?|?].
  - intros x. eexists. split; [done|]. unfold call. by case_decide.
Qed.

(** C7 (the code falls short of it): Two calls for ["s"] in sequence, the
    fetch of the first rejected with a reason that has no string
    conversion.  Line 44 throws before the splice of line 47, so after the
    cycle ["s"] is still in the in-flight array: the second call takes the
    follower path, the store is not asked again, and there is no fetch left
    whose outcome could wake it. *)
Theorem C7_unprintable_rejection_blocks_refetch :
  ∃ s', run init
          [ECall "s";
           ESettle 0 (RejectedUnprintable
                        "Cannot convert a Symbol value to a string");
           ECall "s"]
        = Some s'
    ∧ refreshingSessions s' = ["s"]
    ∧ backendCalls s' = ["s"]
    ∧ tasks s' = [Thrown "Cannot convert a Symbol value to a string";
                  AwaitSubject "s"].
Proof. eexists. by split_and!. Qed.

(** X27: Once the fetch of a leader has settled with a session, with no
    session, or with a rejection whose reason can be printed, its
    identifier is no longer in flight, so the next call for it is a leader
    again and asks the store again; two such calls in sequence ask the
    store twice.  After a rejection whose reason cannot be printed the
    identifier is still in flight and the next call for it is a follower
    that asks nothing. *)
Theorem cleanup_allows_refetch s tid sid r :
  reachable s →
  tasks s !! tid = Some (AwaitStorage sid) →
  (∃ s1 s2, step s (ESettle tid r) = Some s1
     ∧ step s1 (ECall sid) = Some s2
     ∧ match r with
       | Fetched _ | Rejected _ =>
           (sid ∉ refreshingSessions s1)
           ∧ backendCalls s2 = backendCalls s1 ++ [sid]
           ∧ tasks s2 !! length (tasks s1) = Some (AwaitStorage sid)
       | RejectedUnprintable _ =>
           sid ∈ refreshingSessions s1
           ∧ backendCalls s2 = backendCalls s1
           ∧ tasks s2 !! length (tasks s1) = Some (AwaitSubject sid)
       end)
  ∧ (printable r = true →
     ∃ s3, run init [ECall sid; ESettle 0 r; ECall sid] = Some s3
           ∧ backendCalls s3 = [sid; sid]).
Proof.
  intros Hreach Ht. split.
  - exists (resume tid sid r s), (call sid (resume tid sid r s)).
    split; [by apply step_settle|]. split; [done|].
    assert (printable r = true →
            (sid ∉ refreshingSessions (resume tid sid r s))
            ∧ backendCalls (call sid (resume tid sid r s))
              = backendCalls (resume tid sid r s) ++ [sid]
            ∧ tasks (call sid (resume tid sid r s))
                !! length (tasks (resume tid sid r s))
              = Some (AwaitStorage sid)) as Hclean.
    { intros Hr.
      destruct (resume_removes s tid sid r Hreach Ht Hr) as (_ & Hgone & _).
      split; [done|]. rewrite call_not_in_flight by done. simpl.
      split; [done|]. by apply list_lookup_middle. }
    destruct r as [session|error|thrown]; [by apply Hclean..|].
    assert (sid ∈ refreshingSessions
                    (resume tid sid (RejectedUnprintable thrown) s)) as Hin.
    { simpl. apply reachable_inv in Hreach as (_ & Hin & _). by eapply Hin. }
    split; [done|]. rewrite call_in_flight by done. simpl.
    split; [done|]. by apply list_lookup_middle.
  - intros Hr.
    assert (step init (ECall sid) = Some (call sid init)) as H0 by done.
    pose proof (reachable_step init _ _ (ex_intro _ [] eq_refl) H0) as Hr1.
    assert (tasks (call sid init) !! 0%nat = Some (AwaitStorage sid)) as Ht1.
    { by rewrite call_not_in_flight by by intros ?%elem_of_nil. }
    destruct (resume_removes _ 0%nat sid r Hr1 Ht1 Hr) as (_ & Hg & _).
    exists (call sid (resume 0 sid r (call sid init))).
    split.
    + change (run init [ECall sid; ESettle 0 r; ECall sid])
        with (step (call sid init) (ESettle 0 r) ≫= λ s1, Some (call sid s1)).
      by rewrite (step_settle _ _ r _ Ht1).
    + rewrite call_not_in_flight by done. simpl.
      rewrite resume_backendCalls.
      by rewrite call_not_in_flight by by intros ?%elem_of_nil.
Qed.

End Outcomes.

(** ** Calls for distinct identifiers *)

Section Independence.

Implicit Types (s t : State) (sid : string) (tid : nat) (sids : list string).



End Independence.

(** * Properties of the middlewares *)

Import Middleware.

Section Middlewares.

Lemma truthy_false (c : number) : truthy c = false ↔ c = Num 0 ∨ c = NaN.
Proof.
  destruct c as [z|]; simpl.
  - rewrite negb_false_iff, Z.eqb_eq. split; [intros ->; by left|].
    by intros [[= ->]|?].
  - split; [by right|done].
Qed.

Lemma number_lt_spec (a : number) (n : Z) :
  number_lt a (Num n) = true ↔ ∃ t, a = Num t ∧ t < n.
Proof.
  destruct a as [z|]; simpl.
  - rewrite Z.ltb_lt. split; [by exists z|]. by intros (t & [= ->] & ?).
  - split; [done|]. by intros (? & ? & ?).
Qed.

Lemma truthy_string_spec (o : option string) :
  truthy_string o = true ↔ ∃ g, o = Some g ∧ g ≠ EmptyString.
Proof.
  destruct o as [g|]; simpl.
  - rewrite negb_true_iff, bool_decide_eq_false.
    split; [by exists g|]. by intros (? & [= ->] & ?).
  - split; [done|]. by intros (? & ? & ?).
Qed.

(** C9: For every error, [errorHandler] sets one status and sends the
    error's message as the body.  The status is the [statusCode] of an
    [HttpError] whose [statusCode] is truthy, and 500 otherwise: for an
    error that is not an [HttpError], and for an [HttpError] whose
    [statusCode] is falsy, that is [0] or [NaN]. *)
Theorem C9_errorHandler_response :
  (∀ error, ∃ status, errorHandler error = [Status status; Send (message error)])
  ∧ (∀ m c, truthy c = true → errorHandler (HttpError m c) = [Status c; Send m])
  ∧ (∀ m c, truthy c = false →
       errorHandler (HttpError m c) = [Status (Num 500); Send m])
  ∧ (∀ m, errorHandler (PlainError m) = [Status (Num 500); Send m])
  ∧ (∀ m, errorHandler (HttpError m (Num 0)) = [Status (Num 500); Send m]
          ∧ errorHandler (HttpError m NaN) = [Status (Num 500); Send m])
  ∧ (∀ c, truthy c = false ↔ c = Num 0 ∨ c = NaN).
Proof.
  split_and!.
  - intros [m|m c]; simpl; eauto.
  - intros m c Hc. simpl. by rewrite Hc.
  - intros m c Hc. simpl. by rewrite Hc.
  - done.
  - done.
  - apply truthy_false.
Qed.

(** C10: [validateAccessGrant] calls [next()] exactly when the session
    holds an access grant (a non-empty string) and either holds no
    expiration date (none, or the empty string) or holds one whose time is
    not strictly less than the current time, which includes a date that
    cannot be parsed.  Then [next()] is all it does; in every other case it
    sets status 403, sends a body and does not call [next()].  A grant
    stored without an expiration date always passes. *)
Theorem C10_validateAccessGrant (dateGetTime : string → number) (now : Z)
    (session : SessionData) :
  let granted :=
    (∃ g, accessGrant session = Some g ∧ g ≠ EmptyString)
    ∧ (accessGrantExpirationDate session = None
       ∨ accessGrantExpirationDate session = Some EmptyString
       ∨ ∃ d, accessGrantExpirationDate session = Some d
              ∧ ¬ ∃ t, dateGetTime d = Num t ∧ t < now) in
  let actions := validateAccessGrant dateGetTime now session in
  (CallNext ∈ actions ↔ granted)
  ∧ (granted → actions = [CallNext])
  ∧ (¬ granted → (∃ body, actions = [Status (Num 403); Send body])
                 ∧ CallNext ∉ actions)
  ∧ ((∃ g, accessGrant session = Some g ∧ g ≠ EmptyString) →
     accessGrantExpirationDate session = None → actions = [CallNext]).
Proof.
  intros granted actions.
  assert (granted ∧ actions = [CallNext]
          ∨ ¬ granted ∧ ∃ body, actions = [Status (Num 403); Send body])
    as Hcases.
  { subst granted actions. unfold validateAccessGrant.
    destruct (truthy_string (accessGrant session)) eqn:Hg; simpl.
    - apply truthy_string_spec in Hg.
      destruct (accessGrantExpirationDate session) as [d|] eqn:Hd; [|by auto].
      destruct (decide (d = EmptyString)) as [->|Hne].
      { left. simpl. by auto. }
      simpl. rewrite bool_decide_false by done. simpl.
      destruct (number_lt (dateGetTime d) (Num now)) eqn:Hlt.
      + right. split; [|by eauto].
        apply number_lt_spec in Hlt.
        intros [_ [?|[[= ?]|(d' & [= <-] & Hn)]]]; done.
      + left. split; [|done]. split; [done|]. right. right.
        exists d. split; [done|]. rewrite <- number_lt_spec. by rewrite Hlt.
    - right. split; [|by eauto].
      intros [Hg' _]. apply truthy_string_spec in Hg'. congruence. }
  assert (∀ body, CallNext ∉ [Status (Num 403); Send body]) as Hno.
  { intros body. rewrite !not_elem_of_cons. split_and!; [done..|].
    apply not_elem_of_nil. }
  split_and!.
  - destruct Hcases as [[Hg ->]|[Hng [body ->]]].
    + split; [done|]. intros _. by left.
    + split; [by intros ?%Hno|done].
  - intros Hg. by destruct Hcases as [[_ ?]|[? _]].
  - intros Hng. destruct Hcases as [[? _]|[_ [body Hb]]]; [done|].
    rewrite Hb. split; [by exists body|apply Hno].
  - intros Hg Hd. destruct Hcases as [[_ ?]|[Hng _]]; [done|].
    destruct Hng. split; [done|by left].
Qed.

End Middlewares.

(** * The scenarios of the specification, run on the model *)

Section Scenarios.

Local Open Scope string_scope.

(** Scenario 2: three concurrent calls for ["s2"]; one fetch. *)
Lemma C1_scenario_three_callers :
  ∃ s1, run init [ECall "s2"; ECall "s2"; ECall "s2"] = Some s1
    ∧ fetchCount "s2" s1 = 1%nat
    ∧ tasks s1 = [AwaitStorage "s2"; AwaitSubject "s2"; AwaitSubject "s2"]
    ∧ ∀ r, ∃ s2, step s1 (ESettle 0 r) = Some s2 ∧ fetchCount "s2" s2 = 1%nat.
Proof.
  exists (call "s2" (call "s2" (call "s2" init))). split; [reflexivity|].
  destruct (C1_single_fetch_per_cycle init "s2" [ECall "s2"; ECall "s2"]
              (call "s2" (call "s2" (call "s2" init))))
    as (_ & Hcount & _ & _ & _ & Hsettle).
  - exists []. reflexivity.
  - simpl. apply not_elem_of_nil.
  - reflexivity.
  - reflexivity.
  - split; [exact Hcount|]. split; [reflexivity|exact Hsettle].
Defined.

(** The in-flight array after calls for ["a"], ["b"] and ["a"] again. *)
Lemma in_flight_set_example :
  refreshingSessions (call "a" (call "b" (call "a" init))) = ["a"; "b"]
  ∧ NoDup (refreshingSessions (call "a" (call "b" (call "a" init)))).
Proof.
  split; [reflexivity|].
  apply (in_flight_set (call "a" (call "b" (call "a" init)))).
  exists [ECall "a"; ECall "b"; ECall "a"]. reflexivity.
Defined.

(** Scenario 3: two concurrent calls for ["s3"], the store rejects. *)
Lemma rejection_asymmetry_example :
  ∃ s', step (call "s3" (call "s3" init)) (ESettle 0 (Rejected "boom")) = Some s'
    ∧ tasks s' !! 0%nat = Some (Returned None)
    ∧ tasks s' !! 1%nat = Some (Thrown "s3").
Proof.
  destruct (rejection_asymmetry (call "s3" (call "s3" init)) 0 "s3" "boom")
    as (s' & Hstep & Hleader & Hfollowers).
  - reflexivity.
  - exists s'. split; [exact Hstep|]. split; [exact Hleader|].
    apply Hfollowers. reflexivity.
Defined.

(** A follower for ["s"] sees a reset marker, a session and an error for
    ["t"], then an error and a session for ["s"]: it throws the error. *)
Lemma C5_scenario_first_match :
  tasks (emitAll [ENull;
                  ESession (mkSession (mkInfo "t" None true));
                  EError "t"; EError "s";
                  ESession (mkSession (mkInfo "s" None true))]
           (call "s" (call "s" init))) !! 1%nat
  = Some (Thrown "s").
Proof.
  apply (C5_follower_wait (call "s" (call "s" init)) 1 "s").
  reflexivity.
Defined.

(** Scenario 1: a single call for ["s1"], the store returns its session. *)
Lemma continuation_emissions_example :
  ∃ s', step (call "s1" init)
          (ESettle 0 (Fetched (Some (mkSession (mkInfo "s1" None true)))))
        = Some s'
    ∧ emitted s' = [ESession (mkSession (mkInfo "s1" None true)); ENull].
Proof.
  apply (continuation_emissions (call "s1" init) 0 "s1"
           (Fetched (Some (mkSession (mkInfo "s1" None true))))).
  reflexivity.
Defined.

(** Scenario 4: two calls for ["s4"] in sequence; two fetches. *)
Lemma cleanup_allows_refetch_example :
  ∃ s3, run init [ECall "s4"; ESettle 0 (Fetched None); ECall "s4"] = Some s3
    ∧ backendCalls s3 = ["s4"; "s4"].
Proof.
  apply (cleanup_allows_refetch (call "s4" init) 0 "s4" (Fetched None)).
  - exists [ECall "s4"]. reflexivity.
  - reflexivity.
  - reflexivity.
Defined.


(** An [HttpError] with status 404, and one with status 0. *)
Lemma C9_scenario_http_errors :
  errorHandler (HttpError "Not found" (Num 404))
    = [Status (Num 404); Send "Not found"]
  ∧ errorHandler (HttpError "Odd" (Num 0)) = [Status (Num 500); Send "Odd"].
Proof.
  destruct C9_errorHandler_response as (_ & Htruthy & Hfalsy & _).
  split; [apply Htruthy|apply Hfalsy]; reflexivity.
Defined.

(** A grant whose expiration date cannot be parsed passes. *)
Lemma C10_scenario_unparsable_date :
  validateAccessGrant (λ _, NaN) 1700000000000
    (mkSessionData (Some "{}") (Some "soon"))
  = [CallNext].
Proof.
  destruct (C10_validateAccessGrant (λ _, NaN) 1700000000000
              (mkSessionData (Some "{}") (Some "soon")))
    as (_ & Hgranted & _).
  apply Hgranted. split.
  - exists "{}". split; [reflexivity|discriminate].
  - right. right. exists "soon". split; [reflexivity|].
    intros (t & Ht & _). discriminate.
Defined.

End Scenarios.

(** * Further properties of the session helper *)

Section HelperRuns.

Implicit Types (s : State) (sid : string) (tid j : nat) (es : list Event).

Lemma call_tasks_prefix x s : ∃ t, tasks (call x s) = tasks s ++ [t].
Proof. unfold call. case_decide; simpl; eauto. Qed.

(** What one step can do to one task. *)
Lemma step_task s e s' j (t : Task) :
  step s e = Some s' →
  tasks s !! j = Some t →
  match t with
  | AwaitStorage sid =>
      tasks s' !! j = Some t
      ∨ ∃ r, e = ESettle j r ∧ tasks s' !! j = Some (leaderEnds r)
  | AwaitSubject sid =>
      tasks s' !! j = Some t
      ∨ (∃ session, tasks s' !! j = Some (Returned (Some session))
                    ∧ sessionId (info session) = sid)
      ∨ tasks s' !! j = Some (Thrown sid)
  | Returned _ | Thrown _ => tasks s' !! j = Some t
  end.
Proof.
  intros Hstep Hj. destruct e as [x|tid r].
  - injection Hstep as <-.
    pose proof (call_keeps_task x s j t Hj) as Hk.
    destruct t; auto.
  - apply step_settle_inv in Hstep as (x & Hx & ->).
    destruct (decide (j = tid)) as [->|Hne].
    + rewrite Hj in Hx. injection Hx as ->. right. exists r.
      split; [done|]. apply resume_leader. by rewrite Hj.
    + rewrite resume_other, Hj by done.
      destruct (leaderEmits x r) as [v|]; simpl.
      2:{ destruct t; auto. }
      destruct t as [y|y|v'|m]; simpl; auto.
      destruct (matchesFilter y v) eqn:Hm; [|by left].
      right. apply matchesFilter_spec in Hm as [(session & -> & Hid)| ->].
      * left. by exists session.
      * by right.
Qed.

(** X4: Once a call has settled, by returning or by throwing, nothing that
    happens later changes its outcome. *)
Theorem settled_outcome_final s es s' j (t : Task) :
  tasks s !! j = Some t →
  (∀ sid, t ≠ AwaitStorage sid ∧ t ≠ AwaitSubject sid) →
  run s es = Some s' →
  tasks s' !! j = Some t.
Proof.
  intros Hj Hset. revert s Hj. induction es as [|e es IH]; intros s Hj; simpl.
  { by intros [= <-]. }
  destruct (step s e) as [s1|] eqn:Hstep; [|done].
  apply IH. pose proof (step_task _ _ _ _ _ Hstep Hj) as H.
  destruct t as [x|x|v|m]; try done; by destruct (Hset x) as [? ?].
Qed.

(** X2: A call that waits as a follower for [sid] can only end in two
    ways, whatever happens: it returns a session whose identifier is
    [sid], or it throws an error whose message is [sid].  It never returns
    [null] and never another identifier's session. *)
Theorem follower_outcome_sound s es s' j sid :
  tasks s !! j = Some (AwaitSubject sid) →
  run s es = Some s' →
  tasks s' !! j = Some (AwaitSubject sid)
  ∨ (∃ session, tasks s' !! j = Some (Returned (Some session))
                ∧ sessionId (info session) = sid)
  ∨ tasks s' !! j = Some (Thrown sid).
Proof.
  revert s. induction es as [|e es IH]; intros s Hj; simpl.
  { intros [= <-]. by left. }
  destruct (step s e) as [s1|] eqn:Hstep; [|done]. intros Hrun.
  destruct (step_task _ _ _ _ _ Hstep Hj) as [H|[(session & H & Hid)|H]].
  - by apply (IH s1).
  - right. left. exists session. split; [|done].
    by apply (settled_outcome_final s1 es).
  - right. right. by apply (settled_outcome_final s1 es).
Qed.

(** X3: How the call of a leader ends.  Until its fetch settles it stays
    suspended on the store.  Afterwards it has returned what the store
    gave, or [null] if the fetch was rejected with a reason that can be
    printed; it has thrown only if the fetch was rejected with a reason
    whose conversion to a string throws, and then it has thrown what that
    conversion threw. *)
Theorem leader_outcome s es s' tid sid :
  tasks s !! tid = Some (AwaitStorage sid) →
  run s es = Some s' →
  (tasks s' !! tid = Some (AwaitStorage sid)
   ∧ existsb (isSettleOf tid) es = false)
  ∨ ∃ r, ESettle tid r ∈ es
         ∧ tasks s' !! tid
           = Some match r with
                  | Fetched session => Returned session
                  | Rejected _ => Returned None
                  | RejectedUnprintable thrown => Thrown thrown
                  end.
Proof.
  revert s. induction es as [|e es IH]; intros s Hj; simpl.
  { intros [= <-]. by left. }
  destruct (step s e) as [s1|] eqn:Hstep; [|done]. intros Hrun.
  destruct (step_task _ _ _ _ _ Hstep Hj) as [H|(r & -> & H)].
  - destruct (IH s1 H Hrun) as [[Ht Hno]|(r & Hin & Ht)].
    + left. split; [done|]. rewrite Hno, orb_false_r.
      destruct e as [x|t r]; [done|]. simpl. apply bool_decide_eq_false.
      intros ->. apply step_settle_inv in Hstep as (x & Hx & ->).
      rewrite (resume_leader _ _ _ _ Hx) in H. injection H as H.
      by destruct (leaderEnds_settled r sid).
    + right. exists r. split; [by right|done].
  - right. exists r. split; [by left|].
    rewrite (settled_outcome_final s1 es s' tid _ H); [by destruct r| |done].
    intros x. destruct r; split; discriminate.
Qed.

(** X1: When the store returns the session it was asked for, everyone in
    the cycle gets that one session: the leader returns it and so does
    every follower waiting for that identifier.  Followers waiting for
    another identifier are not woken. *)
Theorem found_session_shared s tid sid session :
  tasks s !! tid = Some (AwaitStorage sid) →
  sessionId (info session) = sid →
  ∃ s', step s (ESettle tid (Fetched (Some session))) = Some s'
    ∧ tasks s' !! tid = Some (Returned (Some session))
    ∧ (∀ j, tasks s !! j = Some (AwaitSubject sid) →
            tasks s' !! j = Some (Returned (Some session)))
    ∧ (∀ j sid', sid' ≠ sid → tasks s !! j = Some (AwaitSubject sid') →
            tasks s' !! j = Some (AwaitSubject sid')).
Proof.
  intros Ht Hid. eexists. split; [by apply step_settle|].
  split; [by apply (resume_leader _ _ (Fetched (Some session)))|]. split.
  - intros j Hj. rewrite resume_other by congruence. rewrite Hj. simpl.
    by rewrite bool_decide_true.
  - intros j sid' Hne Hj. rewrite resume_other by congruence.
    rewrite Hj. simpl. rewrite bool_decide_false; [done|congruence].
Qed.

End HelperRuns.

Section HelperAccounts.

Implicit Types (s : State) (sid : string) (tid : nat).

Lemma reachable_ind (P : State → Prop) :
  P init →
  (∀ s e s', reachable s → P s → step s e = Some s' → P s') →
  ∀ s, reachable s → P s.
Proof.
  intros Hinit Hstep s [es Hes]. revert s Hes.
  induction es as [|e es IH] using rev_ind; intros s Hes.
  { injection Hes as <-. done. }
  rewrite run_app in Hes.
  destruct (run init es) as [s1|] eqn:Hs1; [|done]. simpl in Hes.
  destruct (step s1 e) as [s2|] eqn:He; [|done]. injection Hes as <-.
  eapply Hstep; [by exists es|by apply IH|done].
Qed.

(** X5: At any time every fetch that was started is either still in
    flight or has emitted its two values: twice the number of store calls
    is twice the length of the in-flight array plus the number of emitted
    values.  The emitted values come in pairs whose second member is
    [null]. *)
Theorem emission_accounting s :
  reachable s →
  (2 * length (backendCalls s)
   = 2 * length (refreshingSessions s) + length (emitted s))%nat
  ∧ ∃ vs, emitted s = vs ≫= λ v, [v; ENull].
Proof.
  revert s. apply reachable_ind.
  { split; [done|]. by exists []. }
  intros s e s' Hreach [Hcount [vs Hvs]] Hstep. destruct e as [x|tid r].
  - injection Hstep as <-. unfold call. case_decide; simpl.
    + split; [done|]. by exists vs.
    + split; [|by exists vs]. rewrite !length_app. simpl. lia.
  - apply step_settle_inv in Hstep as (x & Hx & ->).
    rewrite resume_backendCalls, resume_emitted.
    destruct (printable r) eqn:Hr.
    + destruct (resume_removes s tid x r Hreach Hx Hr) as (Hperm & _ & _).
      apply Permutation_length in Hperm. simpl in Hperm.
      destruct (leaderEmits x r) as [v|] eqn:Hv; [|by destruct r].
      split.
      * rewrite length_app. simpl. lia.
      * exists (vs ++ [v]). rewrite bind_app, Hvs. done.
    + destruct r; try done. simpl. rewrite app_nil_r.
      split; [done|]. by exists vs.
Qed.

(** The identifiers in flight are being fetched, as long as no rejection
    has had a reason that cannot be printed. *)
Lemma in_flight_has_leader es s :
  run init es = Some s →
  existsb isUnprintable es = false →
  ∀ sid, sid ∈ refreshingSessions s →
         ∃ tid, tasks s !! tid = Some (AwaitStorage sid).
Proof.
  revert s. induction es as [|e es IH] using rev_ind; intros s Hes Hno.
  { injection Hes as <-. by intros sid ?%elem_of_nil. }
  rewrite run_app in Hes. rewrite existsb_app in Hno.
  apply orb_false_iff in Hno as [Hno He]. simpl in He.
  rewrite orb_false_r in He.
  destruct (run init es) as [s1|] eqn:Hs1; [|done]. simpl in Hes.
  destruct (step s1 e) as [s2|] eqn:Hstep; [|done]. injection Hes as <-.
  specialize (IH s1 eq_refl Hno). intros sid Hsid.
  destruct e as [x|tid r].
  - injection Hstep as <-.
    destruct (decide (x ∈ refreshingSessions s1)) as [Hx|Hx].
    + rewrite call_in_flight in Hsid by done.
      destruct (IH sid Hsid) as [t Ht]. exists t. by apply call_keeps_task.
    + rewrite call_not_in_flight in Hsid by done. simpl in Hsid.
      apply elem_of_app in Hsid as [Hsid| ->%list_elem_of_singleton].
      * destruct (IH sid Hsid) as [t Ht]. exists t. by apply call_keeps_task.
      * exists (length (tasks s1)). rewrite call_not_in_flight by done.
        simpl. by apply list_lookup_middle.
  - apply step_settle_inv in Hstep as (x & Hx & ->).
    simpl in He. apply negb_false_iff in He.
    destruct (resume_removes s1 tid x r (ex_intro _ es Hs1) Hx He)
      as (Hperm & Hgone & _).
    assert (sid ≠ x) as Hne by congruence.
    assert (sid ∈ refreshingSessions s1) as Hold.
    { rewrite Hperm. by right. }
    destruct (IH sid Hold) as [t Ht]. exists t.
    apply resume_awaitStorage; [congruence|done].
Qed.

(** X6: At any time every identifier for which a call is suspended on the
    store is in the in-flight array, and no two calls are suspended on
    the store for the same identifier.  As long as no fetch has been
    rejected with a reason that cannot be printed, the array lists those
    identifiers and no others. *)
Theorem one_fetch_in_flight_per_id es s :
  run init es = Some s →
  (∀ tid sid, tasks s !! tid = Some (AwaitStorage sid) →
              sid ∈ refreshingSessions s)
  ∧ (∀ t1 t2 sid,
       tasks s !! t1 = Some (AwaitStorage sid) →
       tasks s !! t2 = Some (AwaitStorage sid) → t1 = t2)
  ∧ (existsb isUnprintable es = false →
     ∀ sid, sid ∈ refreshingSessions s
            ↔ ∃ tid, tasks s !! tid = Some (AwaitStorage sid)).
Proof.
  intros Hes.
  destruct (reachable_inv s (ex_intro _ es Hes)) as (_ & Hin & Huniq).
  split_and!; [done..|]. intros Hno sid. split.
  - by apply (in_flight_has_leader es).
  - intros [tid Ht]. by eapply Hin.
Qed.

End HelperAccounts.

(** * Properties of the session middleware *)

Import Express SessionMiddleware.

Section SessionMiddlewareProofs.

Implicit Types (s : State) (req : option ReqSession) (t : Task).

Lemma check_mandatory (v : option Session) :
  check true v = [CallNext]
  ∧ (∃ session w, v = Some session ∧ webId (info session) = Some w
                  ∧ w ≠ EmptyString ∧ isLoggedIn (info session) = true)
  ∨ check true v = unauthorized
    ∧ ¬ (∃ session w, v = Some session ∧ webId (info session) = Some w
                      ∧ w ≠ EmptyString ∧ isLoggedIn (info session) = true).
Proof.
  unfold check. destruct v as [[[i w l]]|]; simpl.
  - destruct w as [w|]; simpl.
    + destruct (decide (w = EmptyString)) as [->|Hw].
      * right. split; [done|]. intros (? & ? & [= <-] & [= <-] & ? & _). done.
      * rewrite bool_decide_false by done. simpl. destruct l; simpl.
        -- left. split; [done|]. eexists _, w. by split_and!.
        -- right. split; [done|]. by intros (? & ? & [= <-] & _ & _ & ?).
    + right. split; [done|]. by intros (? & ? & [= <-] & ? & _).
  - right. split; [done|]. by intros (? & ? & ? & _).
Qed.

Lemma unauthorized_no_next : CallNext ∉ unauthorized.
Proof.
  unfold unauthorized. rewrite !not_elem_of_cons.
  split_and!; [done..|apply not_elem_of_nil].
Qed.

(** X7: [getSession] lets a request through only with an authenticated
    session: when it calls [next()], the request had a non-empty
    [solidSid], the wrapper's call has returned (not thrown), and
    [res.locals.session] is a session with a non-empty [webId] and
    [isLoggedIn] set.  In every other case in which it is done, what it
    does is [res.status(401).send("Unauthorized")]. *)
Theorem getSession_guard req s :
  match getSession req s with
  | (Done acts, s') =>
      acts = unauthorized ∧ s' = s
      ∧ ¬ ∃ sid, req_solidSid req = Some sid ∧ sid ≠ EmptyString
  | (Waiting tid, s') =>
      (∃ sid, req_solidSid req = Some sid ∧ sid ≠ EmptyString
              ∧ s' = call sid s ∧ tid = length (tasks s)
              ∧ is_Some (tasks s' !! tid))
      ∧ ∀ t v acts,
          afterAwait true t = Some (v, acts) →
          (acts = [CallNext]
           ∧ t = Returned v
           ∧ ∃ session w, v = Some session ∧ webId (info session) = Some w
                          ∧ w ≠ EmptyString
                          ∧ isLoggedIn (info session) = true)
          ∨ (acts = unauthorized ∧ CallNext ∉ acts)
  end.
Proof.
  unfold getSession, getSessionMandatoryOrOptional, beforeAwait.
  destruct (req_solidSid req) as [sid|] eqn:Hsid; simpl.
  2:{ split_and!; [done..|]. by intros (? & ? & _). }
  destruct (decide (sid = EmptyString)) as [->|Hne]; simpl.
  { split_and!; [done..|]. by intros (? & [= <-] & ?). }
  rewrite bool_decide_false by done. simpl. split.
  - exists sid. split_and!; try done.
    destruct (call_tasks_prefix sid s) as [t ->].
    exists t. by apply list_lookup_middle.
  - intros t v acts Hafter. unfold afterAwait in Hafter.
    destruct (caught t) as [v'|] eqn:Hc; simpl in Hafter; [|done].
    injection Hafter as <- <-.
    destruct (check_mandatory v') as [[-> Hauth]|[-> _]].
    + left. split; [done|]. split; [|done].
      destruct t; simpl in Hc; simplify_eq; [done|].
      by destruct Hauth as (? & ? & ? & _).
    + right. split; [done|apply unauthorized_no_next].
Qed.

(** X8: [getSessionOptional] never answers the request itself: whenever it
    is done it has called [next()] and nothing else, whether the request
    had a [solidSid] or not and however the wrapper's call ended.  After a
    call that threw, [res.locals.session] is [undefined]. *)
Theorem getSessionOptional_always_next req s :
  match getSessionOptional req s with
  | (Done acts, s') =>
      acts = [CallNext] ∧ s' = s
      ∧ ¬ ∃ sid, req_solidSid req = Some sid ∧ sid ≠ EmptyString
  | (Waiting tid, s') =>
      (∀ t v acts, afterAwait false t = Some (v, acts) → acts = [CallNext])
      ∧ (∀ m, afterAwait false (Thrown m) = Some (None, [CallNext]))
      ∧ (∀ v, afterAwait false (Returned v) = Some (v, [CallNext]))
  end.
Proof.
  unfold getSessionOptional, getSessionMandatoryOrOptional, beforeAwait.
  assert (∀ t v acts, afterAwait false t = Some (v, acts) → acts = [CallNext])
    as Hany.
  { intros t v acts. unfold afterAwait.
    destruct (caught t); simpl; [|done]. by intros [= _ <-]. }
  destruct (req_solidSid req) as [sid|]; simpl.
  2:{ split_and!; [done..|]. by intros (? & ? & _). }
  destruct (decide (sid = EmptyString)) as [->|Hne]; simpl.
  { split_and!; [done..|]. by intros (? & [= <-] & ?). }
  rewrite bool_decide_false by done. simpl. done.
Qed.

Lemma rejected_outcomes s tid sid error :
  tasks s !! tid = Some (AwaitStorage sid) →
  tasks (resume tid sid (Rejected error) s) !! tid = Some (Returned None)
  ∧ ∀ j, tasks s !! j = Some (AwaitSubject sid) →
         tasks (resume tid sid (Rejected error) s) !! j = Some (Thrown sid).
Proof.
  intros Ht. split; [by apply (resume_leader _ _ (Rejected error))|].
  intros j Hj. rewrite resume_other by congruence. rewrite Hj. simpl.
  by rewrite bool_decide_true.
Qed.

(** X9: What a failed fetch looks like from outside.  When the fetch of
    a leader is rejected with a reason that can be printed, the leader's
    request and the request of every follower waiting for that identifier
    end alike: with [res.locals.session] unset, and with 401 under
    [getSession] or [next()] under [getSessionOptional].  When the reason
    cannot be printed, the leader's request ends in that same way, but the
    followers stay suspended and their requests get no answer from the
    middleware. *)
Theorem rejected_fetch_response s tid sid (mandatory : bool) :
  tasks s !! tid = Some (AwaitStorage sid) →
  let answer : option (option Session * list Action) :=
    Some (None, if mandatory then unauthorized else [CallNext]) in
  (∀ error,
     ∃ s', step s (ESettle tid (Rejected error)) = Some s'
       ∧ ∀ j t, (j = tid ∨ tasks s !! j = Some (AwaitSubject sid)) →
           tasks s' !! j = Some t →
           afterAwait mandatory t = answer)
  ∧ (∀ thrown,
       ∃ s', step s (ESettle tid (RejectedUnprintable thrown)) = Some s'
         ∧ (∀ t, tasks s' !! tid = Some t → afterAwait mandatory t = answer)
         ∧ ∀ j t, tasks s !! j = Some (AwaitSubject sid) →
             tasks s' !! j = Some t →
             t = AwaitSubject sid ∧ afterAwait mandatory t = None).
Proof.
  intros Ht answer. split.
  - intros error.
    destruct (rejected_outcomes s tid sid error Ht) as (Hleader & Hfollowers).
    eexists. split; [by apply step_settle|]. intros j t [->|Hj] Hjt.
    + rewrite Hleader in Hjt. injection Hjt as <-. by destruct mandatory.
    + rewrite (Hfollowers j Hj) in Hjt. injection Hjt as <-.
      by destruct mandatory.
  - intros thrown. eexists. split; [by apply step_settle|]. split.
    + intros t. rewrite (resume_leader _ _ (RejectedUnprintable thrown) _ Ht).
      intros [= <-]. by destruct mandatory.
    + intros j t Hj. rewrite resume_other by congruence. simpl.
      rewrite Hj. by intros [= <-].
Qed.

End SessionMiddlewareProofs.

(** * Properties of [validateSession] and of the pod middleware *)

Import ResourceHelper PodMiddleware.

Section Guards.

Implicit Types (req : option ReqSession) (ls : option Session).

(** A session as [getSession] requires it. *)
Lemma authenticated_spec ls :
  negb (truthy_string (locals_webId ls)) || negb (locals_isLoggedIn ls) = false
  ↔ ∃ session w, ls = Some session ∧ webId (info session) = Some w
                 ∧ w ≠ EmptyString ∧ isLoggedIn (info session) = true.
Proof.
  rewrite orb_false_iff, !negb_false_iff, truthy_string_spec. split.
  - intros [(w & Hw & Hne) Hl]. destruct ls as [session|]; [|done].
    exists session, w. by split_and!.
  - intros (session & w & -> & Hw & Hne & Hl). simpl. rewrite Hw.
    split; [by exists w|done].
Qed.

Lemma authenticated_dec ls :
  (∃ session w, ls = Some session ∧ webId (info session) = Some w
                ∧ w ≠ EmptyString ∧ isLoggedIn (info session) = true)
  ∨ ¬ (∃ session w, ls = Some session ∧ webId (info session) = Some w
                    ∧ w ≠ EmptyString ∧ isLoggedIn (info session) = true).
Proof.
  rewrite <- authenticated_spec.
  destruct (negb _ || negb _); [by right|by left].
Qed.

Lemma validateSession_passes ls req :
  validateSession ls req = None
  ↔ (∃ session w, ls = Some session ∧ webId (info session) = Some w
                  ∧ w ≠ EmptyString ∧ isLoggedIn (info session) = true)
    ∧ (∃ sid, req_solidSid req = Some sid ∧ sid ≠ EmptyString)
    ∧ ∃ g, req_accessGrant req = Some g ∧ g ≠ EmptyString.
Proof.
  rewrite <- authenticated_spec, <- !truthy_string_spec.
  unfold validateSession.
  destruct (negb (truthy_string (locals_webId ls))
            || negb (locals_isLoggedIn ls)); simpl.
  { split; [done|]. by intros [? _]. }
  destruct (truthy_string (req_solidSid req)); simpl.
  2:{ split; [done|]. by intros (_ & ? & _). }
  destruct (truthy_string (req_accessGrant req)); simpl.
  - done.
  - split; [done|]. by intros (_ & _ & ?).
Qed.

(** X10: [validateSession] returns without throwing exactly when the
    session in [res.locals] is authenticated and [req.session] holds a
    non-empty [solidSid] and a non-empty [accessGrant].  When one of the
    first three fails it throws the 401 error, whether or not there is
    an access grant; only an authenticated request without a grant gets the
    500 error.  Handed to [errorHandler], either error is answered with
    its own status and message. *)
Theorem validateSession_spec ls req :
  let authenticated :=
    (∃ session w, ls = Some session ∧ webId (info session) = Some w
                  ∧ w ≠ EmptyString ∧ isLoggedIn (info session) = true)
    ∧ ∃ sid, req_solidSid req = Some sid ∧ sid ≠ EmptyString in
  let granted := ∃ g, req_accessGrant req = Some g ∧ g ≠ EmptyString in
  (validateSession ls req = None ↔ authenticated ∧ granted)
  ∧ (¬ authenticated →
     ∃ e, validateSession ls req = Some e
          ∧ errorHandler e
            = [Status (Num 401); Send "No valid authenticated session found."])
  ∧ (authenticated → ¬ granted →
     ∃ e, validateSession ls req = Some e
          ∧ errorHandler e
            = [Status (Num 500); Send "No valid access grant found for pod."]).
Proof.
  intros authenticated granted. unfold validateSession.
  pose proof (authenticated_spec ls) as Ha.
  pose proof (truthy_string_spec (req_solidSid req)) as Hs.
  pose proof (truthy_string_spec (req_accessGrant req)) as Hg.
  destruct (negb (truthy_string (locals_webId ls))
            || negb (locals_isLoggedIn ls)) eqn:E1; simpl.
  { assert (¬ authenticated) as Hna.
    { intros [H _]. apply Ha in H. done. }
    split_and!; [split; [done|by intros [? _]]|by eauto|done]. }
  destruct (truthy_string (req_solidSid req)) eqn:E2; simpl.
  2:{ assert (¬ authenticated) as Hna.
      { intros [_ H]. apply Hs in H. done. }
      split_and!; [split; [done|by intros [? _]]|by eauto|done]. }
  assert authenticated as Hauth.
  { split; [by apply Ha|by apply Hs]. }
  destruct (truthy_string (req_accessGrant req)) eqn:E3; simpl.
  - assert granted by by apply Hg.
    split_and!; [done|done|done].
  - assert (¬ granted) as Hng.
    { intros H. apply Hg in H. done. }
    split_and!; [split; [done|by intros [_ ?]]|done|by eauto].
Qed.

(** X11: Behind the two guards [validateSession] cannot throw.  If
    [getSession] has let the request through (it had a [solidSid], and
    the wrapper's outcome passed the check) and [validateAccessGrant] has
    called [next()] on the same [req.session], then [validateSession] on
    that request returns. *)
Theorem validateSession_behind_guards (dateGetTime : string → number) (now : Z)
    (r : ReqSession) (sid : string) (t : Task) (ls : option Session) :
  beforeAwait true (Some r) = inr sid →
  afterAwait true t = Some (ls, [CallNext]) →
  validateAccessGrant dateGetTime now (sessionData r) = [CallNext] →
  validateSession ls (Some r) = None.
Proof.
  intros Hbefore Hafter Hgrant.
  apply validateSession_passes. split_and!.
  - unfold afterAwait in Hafter.
    destruct (caught t) as [v|]; simpl in Hafter; [|done].
    injection Hafter as <- Hc.
    destruct (check_mandatory v) as [[_ H]|[Hu _]]; [done|].
    rewrite Hu in Hc. discriminate.
  - unfold beforeAwait in Hbefore. simpl in *.
    destruct (solidSid r) as [x|]; [|done].
    destruct (negb _) eqn:E; [done|]. injection Hbefore as ->.
    exists sid. split; [done|]. intros ->. done.
  - apply truthy_string_spec. simpl. unfold validateAccessGrant in Hgrant.
    destruct (truthy_string (accessGrant (sessionData r))); [done|].
    discriminate.
Qed.

End Guards.

Section Pods.

Variable getPodUrlAll : string → Try (list string).

Implicit Types (ls : option Session).

Lemma getPods_unauthenticated ls mandatory :
  (¬ ∃ session w, ls = Some session ∧ webId (info session) = Some w
                  ∧ w ≠ EmptyString ∧ isLoggedIn (info session) = true) →
  getPodsMandatoryOrOptional getPodUrlAll ls mandatory
  = if mandatory then
      (None, NextError (HttpError
         "[fetchPodsMandatoryOrOptional] Fetching Pods - but no valid authenticated session found."
         (Num 401)))
    else (None, NextOk).
Proof.
  intros Hna. unfold getPodsMandatoryOrOptional.
  destruct (negb (truthy_string (locals_webId ls))
            || negb (locals_isLoggedIn ls)) eqn:E1; [done|].
  destruct Hna. by apply authenticated_spec.
Qed.

Lemma getPods_authenticated session w mandatory :
  webId (info session) = Some w → w ≠ EmptyString →
  isLoggedIn (info session) = true →
  getPodsMandatoryOrOptional getPodUrlAll (Some session) mandatory
  = match getPodUrlAll w with
    | Throw e => (None, NextError e)
    | Ok l =>
        if bool_decide (length l = 0%nat) && mandatory then
          (None, NextError (HttpError
             ("[fetchPods] No Pods found for WebID [" +:+ w +:+ "].")
             (Num 404)))
        else (Some l, NextOk)
    end.
Proof.
  intros Hw Hne Hl. unfold getPodsMandatoryOrOptional.
  assert (negb (truthy_string (locals_webId (Some session)))
          || negb (locals_isLoggedIn (Some session)) = false) as ->.
  { apply authenticated_spec. by exists session, w. }
  simpl. by rewrite Hw.
Qed.

(** X12: [getPods] calls [next()] without an error exactly when the
    session is authenticated and [getPodUrlAll] yields at least one pod
    for its WebID; [res.locals.pods] is then that list, and is not
    assigned otherwise.  Without an authenticated session the error
    passed to [next] is answered by [errorHandler] with 401, without pods
    with 404, and what [getPodUrlAll] throws is passed on as it is. *)
Theorem getPods_spec ls :
  let authenticated w :=
    ∃ session, ls = Some session ∧ webId (info session) = Some w
               ∧ w ≠ EmptyString ∧ isLoggedIn (info session) = true in
  (∀ pods, getPods getPodUrlAll ls = (pods, NextOk)
           ↔ ∃ w l, authenticated w ∧ getPodUrlAll w = Ok l
                    ∧ l ≠ [] ∧ pods = Some l)
  ∧ ((¬ ∃ w, authenticated w) →
     ∃ e, getPods getPodUrlAll ls = (None, NextError e)
          ∧ ∃ body, errorHandler e = [Status (Num 401); Send body])
  ∧ (∀ w, authenticated w → getPodUrlAll w = Ok [] →
     ∃ e, getPods getPodUrlAll ls = (None, NextError e)
          ∧ ∃ body, errorHandler e = [Status (Num 404); Send body])
  ∧ (∀ w e, authenticated w → getPodUrlAll w = Throw e →
     getPods getPodUrlAll ls = (None, NextError e)).
Proof.
  intros authenticated. unfold getPods. split_and!.
  - intros pods. split.
    + destruct (authenticated_dec ls) as [Ha|Hna].
      * destruct Ha as (session & w & -> & Hw & Hne & Hl).
        rewrite (getPods_authenticated session w) by done.
        destruct (getPodUrlAll w) as [l|e] eqn:Hf; [|done].
        rewrite andb_true_r. case_bool_decide as Hlen; [done|].
        intros [= <-]. exists w, l. split_and!; try done.
        -- by exists session.
        -- intros ->. done.
      * by rewrite getPods_unauthenticated.
    + intros (w & l & (session & -> & Hw & Hne & Hl) & Hf & Hl' & ->).
      rewrite (getPods_authenticated session w), Hf, andb_true_r by done.
      rewrite bool_decide_false; [done|]. by destruct l.
  - intros Hna. rewrite getPods_unauthenticated.
    + eexists. split; [done|]. by eexists.
    + intros (session & w & H). apply Hna. exists w. by exists session.
  - intros w (session & -> & Hw & Hne & Hl) Hf.
    rewrite (getPods_authenticated session w), Hf by done. simpl.
    eexists. split; [done|]. by eexists.
  - intros w e (session & -> & Hw & Hne & Hl) Hf.
    by rewrite (getPods_authenticated session w), Hf.
Qed.

(** X13: [getPodsOptional] raises no error of its own: the only error it
    passes to [next] is one thrown by [getPodUrlAll] for the WebID of an
    authenticated session.  Without such a session it calls [next()] and
    assigns nothing; with one and an empty list of pods it assigns the
    empty list and calls [next()]. *)
Theorem getPodsOptional_spec ls :
  (∀ pods e, getPodsOptional getPodUrlAll ls = (pods, NextError e) →
     pods = None
     ∧ ∃ session w, ls = Some session ∧ webId (info session) = Some w
                    ∧ w ≠ EmptyString ∧ isLoggedIn (info session) = true
                    ∧ getPodUrlAll w = Throw e)
  ∧ ((¬ ∃ session w, ls = Some session ∧ webId (info session) = Some w
                     ∧ w ≠ EmptyString ∧ isLoggedIn (info session) = true) →
     getPodsOptional getPodUrlAll ls = (None, NextOk))
  ∧ (∀ session w l, ls = Some session → webId (info session) = Some w →
       w ≠ EmptyString → isLoggedIn (info session) = true →
       getPodUrlAll w = Ok l →
       getPodsOptional getPodUrlAll ls = (Some l, NextOk)).
Proof.
  unfold getPodsOptional. split_and!.
  - intros pods e.
    destruct (authenticated_dec ls) as [Ha|Hna].
    + destruct Ha as (session & w & -> & Hw & Hne & Hl).
      rewrite (getPods_authenticated session w) by done.
      destruct (getPodUrlAll w) as [l|e'] eqn:Hf.
      { by rewrite andb_false_r. }
      intros [= <- <-]. split; [done|]. by exists session, w.
    + by rewrite getPods_unauthenticated.
  - intros Hna. by rewrite getPods_unauthenticated.
  - intros session w l -> Hw Hne Hl Hf.
    by rewrite (getPods_authenticated session w), Hf, andb_false_r.
Qed.

End Pods.

(** X14: Without an authenticated session the pod middleware does not
    look up pods: its result is the same whatever [getPodUrlAll] would
    answer. *)
Theorem getPods_no_lookup_without_session
    (f g : string → Try (list string)) (ls : option Session) (mandatory : bool) :
  (¬ ∃ session w, ls = Some session ∧ webId (info session) = Some w
                  ∧ w ≠ EmptyString ∧ isLoggedIn (info session) = true) →
  getPodsMandatoryOrOptional f ls mandatory
  = getPodsMandatoryOrOptional g ls mandatory.
Proof. intros Hna. by rewrite !getPods_unauthenticated. Qed.

(** X15: Behind [getSession] the 401 of [getPods] cannot happen: if
    [getSession] has called [next()], then [getPods] on the session it
    left in [res.locals] does look up the pods of that session's WebID,
    and an error it passes on is either the 404 for an empty list or what
    the lookup threw. *)
Theorem getPods_behind_getSession
    (getPodUrlAll : string → Try (list string)) (t : Task) (ls : option Session) :
  afterAwait true t = Some (ls, [CallNext]) →
  ∃ session w, ls = Some session ∧ webId (info session) = Some w
    ∧ match getPodUrlAll w with
      | Ok [] => ∃ e body, getPods getPodUrlAll ls = (None, NextError e)
                           ∧ errorHandler e = [Status (Num 404); Send body]
      | Ok l => getPods getPodUrlAll ls = (Some l, NextOk)
      | Throw e => getPods getPodUrlAll ls = (None, NextError e)
      end.
Proof.
  intros Hafter. unfold afterAwait in Hafter.
  destruct (caught t) as [v|]; simpl in Hafter; [|done].
  injection Hafter as <- Hc.
  destruct (check_mandatory v) as [[_ H]|[Hu _]];
    [|rewrite Hu in Hc; discriminate].
  destruct H as (session & w & -> & Hw & Hne & Hl).
  exists session, w. split; [done|]. split; [done|].
  unfold getPods. rewrite (getPods_authenticated _ session w) by done.
  destruct (getPodUrlAll w) as [[|p l]|e]; simpl; [|done..].
  by eexists _, _.
Qed.

(** * Properties of the resource middleware *)

Import ResourceMiddleware.

Section ResourceProofs.

Context {URL Grant Dataset Blob : Type}.
Variable newURL : string → Try URL.
Variable jsonParse : string → Try Grant.
Variable turtleAsSolidDataset : string → Try Dataset.
Variable getSolidDataset : URL → Grant → Try Dataset.
Variable deleteSolidDataset : URL → Grant → Try unit.
Variable writeSolidDataset : URL → Dataset → Grant → Try unit.
Variable getFileFromPod : URL → Grant → Try Blob.

Implicit Types (req : Request) (ls : option Session) (key : string).

Lemma validated_cases req ls :
  (validated ls req = Ok () ∧ validateSession ls (session req) = None)
  ∨ ∃ e, validated ls req = Throw e ∧ validateSession ls (session req) = Some e.
Proof.
  unfold validated. destruct (validateSession ls (session req)); eauto.
Qed.

Lemma requiredParam_cases req key message :
  (∃ v, requiredParam key message req = Ok v
        ∧ query req key = Some v ∧ v ≠ EmptyString)
  ∨ (requiredParam key message req = Throw (HttpError message (Num 400))
     ∧ ¬ ∃ v, query req key = Some v ∧ v ≠ EmptyString).
Proof.
  unfold requiredParam. destruct (query req key) as [v|].
  - destruct (decide (v = EmptyString)) as [->|Hne]; simpl.
    + right. split; [done|]. by intros (? & [= <-] & ?).
    + rewrite bool_decide_false by done. simpl. left. by exists v.
  - right. split; [done|]. by intros (? & ? & _).
Qed.

Lemma validateSession_grant req ls :
  validateSession ls (session req) = None →
  ∃ g, req_accessGrant (session req) = Some g
       ∧ parsedGrant jsonParse req = jsonParse g.
Proof.
  intros (_ & _ & g & Hg & _)%validateSession_passes.
  exists g. split; [done|]. unfold parsedGrant. by rewrite Hg.
Qed.

(** Case analysis along the checks a resource middleware starts with. *)
Ltac open_checks req ls key message :=
  let e := fresh "e" in
  let Hv := fresh "Hv" in
  let iri := fresh "iri" in
  let Hq := fresh "Hq" in
  let Hne := fresh "Hne" in
  let Hnq := fresh "Hnq" in
  let g := fresh "g" in
  let Hg := fresh "Hg" in
  let Hpg := fresh "Hpg" in
  destruct (validated_cases req ls) as [[-> Hv]|(e & -> & Hv)]; simpl;
  [ destruct (requiredParam_cases req key message)
      as [(iri & -> & Hq & Hne)|[-> Hnq]]; simpl;
    [ destruct (validateSession_grant req ls Hv) as (g & Hg & Hpg) | ]
  | ].

(** X16: [getResource] calls [next()] without an error exactly when the
    session passes [validateSession], the query holds a non-empty URL
    under the configured key, the stored access grant parses, the URL
    parses, and the pod service returns a dataset.  It has then asked the
    pod service once, for that URL with that grant, and
    [res.locals.solidDataset] is the dataset it got; in every other case
    [res.locals.solidDataset] is not assigned. *)
Theorem getResource_spec key req ls :
  let result :=
    getResource newURL jsonParse getSolidDataset key req ls in
  (handover (snd result) = NextOk
   ↔ ∃ iri g grant url d,
       validateSession ls (session req) = None
       ∧ query req key = Some iri ∧ iri ≠ EmptyString
       ∧ req_accessGrant (session req) = Some g
       ∧ jsonParse g = Ok grant ∧ newURL iri = Ok url
       ∧ getSolidDataset url grant = Ok d
       ∧ result = (Some d, {| podOps := [OpGetSolidDataset url grant];
                              handover := NextOk |}))
  ∧ (handover (snd result) ≠ NextOk → fst result = None).
Proof.
  simpl. unfold getResource.
  open_checks req ls key (resourceUrlRequired key).
  - rewrite Hpg.
    destruct (jsonParse g) as [grant|e] eqn:Hj; simpl.
    2:{ split; [|done]. split; [done|].
        intros (? & ? & ? & ? & ? & _ & _ & _ & ? & ? & _). congruence. }
    destruct (newURL iri) as [url|e] eqn:Hu; simpl.
    2:{ split; [|done]. split; [done|].
        intros (? & ? & ? & ? & ? & _ & ? & _ & _ & _ & ? & _). congruence. }
    destruct (getSolidDataset url grant) as [d|e] eqn:Hd; simpl.
    + split; [|done]. split; [|done]. intros _.
      exists iri, g, grant, url, d. by split_and!.
    + split; [|done]. split; [done|].
      intros (? & ? & ? & ? & ? & _ & ? & _ & ? & ? & ? & ? & _).
      simplify_eq. congruence.
  - split; [|done]. split; [done|].
    intros (v & ? & ? & ? & ? & _ & ? & ? & _). destruct Hnq. by exists v.
  - split; [|done]. split; [done|].
    intros (? & ? & ? & ? & ? & ? & _). congruence.
Qed.

(** X17: [getFile] calls [next()] without an error exactly when the
    session passes [validateSession], the query holds a non-empty URL
    under the configured key, the stored access grant parses, the URL
    parses, and the pod service returns a file; [res.locals.file] is then
    that file, and is not assigned in any other case. *)
Theorem getFile_spec key req ls :
  let result := getFile (Dataset := Dataset) newURL jsonParse getFileFromPod key req ls in
  (handover (snd result) = NextOk
   ↔ ∃ iri g grant url file,
       validateSession ls (session req) = None
       ∧ query req key = Some iri ∧ iri ≠ EmptyString
       ∧ req_accessGrant (session req) = Some g
       ∧ jsonParse g = Ok grant ∧ newURL iri = Ok url
       ∧ getFileFromPod url grant = Ok file
       ∧ result = (Some file, {| podOps := [OpGetFile url grant];
                                 handover := NextOk |}))
  ∧ (handover (snd result) ≠ NextOk → fst result = None).
Proof.
  simpl. unfold getFile.
  open_checks req ls key (resourceUrlRequired key).
  - rewrite Hpg.
    destruct (jsonParse g) as [grant|e] eqn:Hj; simpl.
    2:{ split; [|done]. split; [done|].
        intros (? & ? & ? & ? & ? & _ & _ & _ & ? & ? & _). congruence. }
    destruct (newURL iri) as [url|e] eqn:Hu; simpl.
    2:{ split; [|done]. split; [done|].
        intros (? & ? & ? & ? & ? & _ & ? & _ & _ & _ & ? & _). congruence. }
    destruct (getFileFromPod url grant) as [d|e] eqn:Hd; simpl.
    + split; [|done]. split; [|done]. intros _.
      exists iri, g, grant, url, d. by split_and!.
    + split; [|done]. split; [done|].
      intros (? & ? & ? & ? & ? & _ & ? & _ & ? & ? & ? & ? & _).
      simplify_eq. congruence.
  - split; [|done]. split; [done|].
    intros (v & ? & ? & ? & ? & _ & ? & ? & _). destruct Hnq. by exists v.
  - split; [|done]. split; [done|].
    intros (? & ? & ? & ? & ? & ? & _). congruence.
Qed.

(** X18: The checks come first and in a fixed order, for all four
    middlewares.  An error thrown by [validateSession] is passed to
    [next] as it is, whatever the query holds; with a valid session and no
    URL under the key, the error passed to [next] is the 400 error naming
    the key.  In both cases the pod service is not called. *)
Theorem resource_checks_first key req ls :
  let refused e := {| podOps := @nil (@PodOp URL Grant Dataset);
                      handover := NextError e |} in
  (∀ e, validateSession ls (session req) = Some e →
     getResource newURL jsonParse getSolidDataset key req ls
       = (None, refused e)
     ∧ writeResource newURL jsonParse turtleAsSolidDataset
         deleteSolidDataset writeSolidDataset key req ls = refused e
     ∧ getFile (Dataset := Dataset) newURL jsonParse getFileFromPod key req ls = (None, refused e)
     ∧ writeFile (Dataset := Dataset) newURL jsonParse key req ls = refused e)
  ∧ (validateSession ls (session req) = None →
     (¬ ∃ v, query req key = Some v ∧ v ≠ EmptyString) →
     let e := HttpError (resourceUrlRequired key) (Num 400) in
     let e' := HttpError (fileUrlRequired key) (Num 400) in
     getResource newURL jsonParse getSolidDataset key req ls
       = (None, refused e)
     ∧ writeResource newURL jsonParse turtleAsSolidDataset
         deleteSolidDataset writeSolidDataset key req ls = refused e
     ∧ getFile (Dataset := Dataset) newURL jsonParse getFileFromPod key req ls = (None, refused e)
     ∧ writeFile (Dataset := Dataset) newURL jsonParse key req ls = refused e'
     ∧ errorHandler e = [Status (Num 400); Send (resourceUrlRequired key)]
     ∧ errorHandler e' = [Status (Num 400); Send (fileUrlRequired key)]).
Proof.
  intros refused. split.
  - intros e He. unfold getResource, writeResource, getFile, writeFile.
    destruct (validated_cases req ls) as [[_ Hv]|(e' & -> & Hv)];
      [congruence|].
    assert (e' = e) as -> by congruence. done.
  - intros Hv Hnq e e'.
    unfold getResource, writeResource, getFile, writeFile.
    destruct (validated_cases req ls) as [[-> _]|(? & _ & ?)];
      [|congruence]. simpl.
    destruct (requiredParam_cases req key (resourceUrlRequired key))
      as [(v & _ & ? & ?)|[-> _]]; [destruct Hnq; by exists v|].
    destruct (requiredParam_cases req key (fileUrlRequired key))
      as [(v & _ & ? & ?)|[-> _]]; [destruct Hnq; by exists v|].
    done.
Qed.

(** X19: Whatever a resource middleware asks of the pod service, it asks
    for the URL found in the query under the configured key and with the
    access grant stored in the session, and only after [validateSession]
    has passed. *)
Theorem pod_access_target key req ls (op : @PodOp URL Grant Dataset) :
  op ∈ podOps (snd (getResource newURL jsonParse getSolidDataset key req ls))
  ∨ op ∈ podOps (writeResource newURL jsonParse turtleAsSolidDataset
                   deleteSolidDataset writeSolidDataset key req ls)
  ∨ op ∈ podOps (snd (getFile newURL jsonParse getFileFromPod key req ls))
  ∨ op ∈ podOps (writeFile newURL jsonParse key req ls) →
  ∃ iri g,
    validateSession ls (session req) = None
    ∧ query req key = Some iri ∧ iri ≠ EmptyString
    ∧ req_accessGrant (session req) = Some g
    ∧ newURL iri = Ok (fst (opTarget op))
    ∧ jsonParse g = Ok (snd (opTarget op)).
Proof.
  unfold getResource, writeResource, getFile, writeFile.
  assert (∀ o : @PodOp URL Grant Dataset, o ∉ []) as Hnil
    by (intros o; apply not_elem_of_nil).
  destruct (validated_cases req ls) as [[-> Hv]|(e & -> & Hv)]; simpl.
  2:{ intros [H|[H|[H|H]]]; by apply Hnil in H. }
  destruct (validateSession_grant req ls Hv) as (g & Hg & Hpg).
  rewrite Hpg.
  destruct (requiredParam_cases req key (resourceUrlRequired key))
    as [(iri & -> & Hq & Hne)|[-> Hnq]];
  destruct (requiredParam_cases req key (fileUrlRequired key))
    as [(iri' & -> & Hq' & Hne')|[-> Hnq']]; simpl.
  2:{ destruct Hnq'. by exists iri. }
  2:{ destruct Hnq. by exists iri'. }
  2:{ intros [H|[H|[H|H]]]; by apply Hnil in H. }
  assert (iri' = iri) as -> by congruence.
  destruct (jsonParse g) as [grant|e] eqn:Hj; simpl.
  2:{ destruct (singleUpload req); simpl;
        intros [H|[H|[H|H]]]; by apply Hnil in H. }
  destruct (newURL iri) as [url|e] eqn:Hu; simpl.
  2:{ destruct (singleUpload req); simpl;
        intros [H|[H|[H|H]]]; by apply Hnil in H. }
  assert (∀ o : @PodOp URL Grant Dataset, opTarget o = (url, grant) →
            ∃ iri0 g0, validateSession ls (session req) = None
              ∧ query req key = Some iri0 ∧ iri0 ≠ EmptyString
              ∧ req_accessGrant (session req) = Some g0
              ∧ newURL iri0 = Ok (fst (opTarget o))
              ∧ jsonParse g0 = Ok (snd (opTarget o))) as Hgoal.
  { intros o ->. exists iri, g. by split_and!. }
  intros [H|[H|[H|H]]]; apply Hgoal.
  - destruct (getSolidDataset url grant); simpl in H;
      apply list_elem_of_singleton in H as ->; done.
  - destruct (deleteSolidDataset url grant); simpl in H.
    + rewrite Hu in H. simpl in H.
      destruct (turtleAsSolidDataset (body req)) as [d|]; simpl in H.
      * destruct (writeSolidDataset url d grant); simpl in H;
          apply elem_of_cons in H as [->|H]; try done;
          apply list_elem_of_singleton in H as ->; done.
      * apply list_elem_of_singleton in H as ->; done.
    + apply list_elem_of_singleton in H as ->; done.
  - destruct (getFileFromPod url grant); simpl in H;
      apply list_elem_of_singleton in H as ->; done.
  - destruct (singleUpload req); simpl in H; [|by apply Hnil in H].
    apply list_elem_of_singleton in H as ->; done.
Qed.

(** X20: [writeResource] deletes before it writes, and does not look at
    the request body until the deletion is done.  A write is asked of the
    pod service only directly after a successful deletion at the same URL
    with the same grant, and [next()] is called without an error only
    after a successful write.  When the body is then rejected by
    [turtleAsSolidDataset], or the write fails, the error goes to [next]
    with the dataset already deleted. *)
Theorem writeResource_order key req ls :
  let out := writeResource newURL jsonParse turtleAsSolidDataset
               deleteSolidDataset writeSolidDataset key req ls in
  (∀ url d grant, OpWriteSolidDataset url d grant ∈ podOps out →
     podOps out = [OpDeleteSolidDataset url grant;
                   OpWriteSolidDataset url d grant]
     ∧ deleteSolidDataset url grant = Ok ()
     ∧ turtleAsSolidDataset (body req) = Ok d)
  ∧ (handover out = NextOk →
     ∃ url d grant,
       podOps out = [OpDeleteSolidDataset url grant;
                     OpWriteSolidDataset url d grant]
       ∧ writeSolidDataset url d grant = Ok ())
  ∧ (∀ iri g url grant,
       validateSession ls (session req) = None →
       query req key = Some iri → iri ≠ EmptyString →
       req_accessGrant (session req) = Some g →
       jsonParse g = Ok grant → newURL iri = Ok url →
       deleteSolidDataset url grant = Ok () →
       match turtleAsSolidDataset (body req) with
       | Throw e =>
           out = {| podOps := [OpDeleteSolidDataset url grant];
                    handover := NextError e |}
       | Ok d =>
           match writeSolidDataset url d grant with
           | Throw e =>
               out = {| podOps := [OpDeleteSolidDataset url grant;
                                   OpWriteSolidDataset url d grant];
                        handover := NextError e |}
           | Ok _ =>
               out = {| podOps := [OpDeleteSolidDataset url grant;
                                   OpWriteSolidDataset url d grant];
                        handover := NextOk |}
           end
       end).
Proof.
  simpl. unfold writeResource.
  assert (∀ o : @PodOp URL Grant Dataset, o ∉ []) as Hnil
    by (intros o; apply not_elem_of_nil).
  open_checks req ls key (resourceUrlRequired key).
  2,3: split_and!;
    [intros ? ? ? H; by apply Hnil in H | done
    |intros; try congruence].
  2:{ destruct Hnq. by eexists. }
  rewrite Hpg.
  destruct (jsonParse g) as [grant|e] eqn:Hj; simpl.
  2:{ split_and!; [intros ? ? ? H; by apply Hnil in H|done|].
      intros. congruence. }
  destruct (newURL iri) as [url|e] eqn:Hu; simpl.
  2:{ split_and!; [intros ? ? ? H; by apply Hnil in H|done|].
      intros. congruence. }
  assert (∀ iri0 g0 url0 grant0,
            query req key = Some iri0 → req_accessGrant (session req) = Some g0 →
            jsonParse g0 = Ok grant0 → newURL iri0 = Ok url0 →
            url0 = url ∧ grant0 = grant) as Hsame.
  { intros. split; congruence. }
  destruct (deleteSolidDataset url grant) as [[]|e] eqn:Hdel; simpl.
  2:{ split_and!.
      - intros ? ? ? H. by apply list_elem_of_singleton in H.
      - done.
      - intros iri0 g0 url0 grant0 _ H1 _ H2 H3 H4 H5.
        destruct (Hsame _ _ _ _ H1 H2 H3 H4) as [-> ->]. congruence. }
  rewrite Hu. simpl.
  destruct (turtleAsSolidDataset (body req)) as [d|e] eqn:Ht; simpl.
  2:{ split_and!.
      - intros ? ? ? H. by apply list_elem_of_singleton in H.
      - done.
      - intros iri0 g0 url0 grant0 _ H1 _ H2 H3 H4 H5.
        by destruct (Hsame _ _ _ _ H1 H2 H3 H4) as [-> ->]. }
  assert (∀ url0 d0 grant0,
            OpWriteSolidDataset url0 d0 grant0
              ∈ [OpDeleteSolidDataset url grant;
                 OpWriteSolidDataset url d grant] →
            url0 = url ∧ d0 = d ∧ grant0 = grant) as Hin.
  { intros ? ? ? [?|H]%elem_of_cons; [done|].
    apply list_elem_of_singleton in H. by simplify_eq. }
  destruct (writeSolidDataset url d grant) as [[]|e] eqn:Hw; simpl.
  - split_and!.
    + intros ? ? ? (-> & -> & ->)%Hin. done.
    + intros _. by exists url, d, grant.
    + intros iri0 g0 url0 grant0 _ H1 _ H2 H3 H4 H5.
      destruct (Hsame _ _ _ _ H1 H2 H3 H4) as [-> ->]. by rewrite Hw.
  - split_and!.
    + intros ? ? ? (-> & -> & ->)%Hin. done.
    + done.
    + intros iri0 g0 url0 grant0 _ H1 _ H2 H3 H4 H5.
      destruct (Hsame _ _ _ _ H1 H2 H3 H4) as [-> ->]. by rewrite Hw.
Qed.

Lemma singleUpload_cases req :
  (∃ field f, files req = Some [(field, inl f)] ∧ singleUpload req = Ok f)
  ∨ (files req = None
     ∧ singleUpload req
       = Throw (HttpError
           "No files are uploaded, or the express-fileupload module should be included."
           (Num 400)))
  ∨ (∃ fields, files req = Some fields
       ∧ (length fields ≠ 1%nat ∨ ∃ field fs, fields = [(field, inr fs)])
       ∧ singleUpload req
         = Throw (HttpError "One file should be uploaded." (Num 400))).
Proof.
  unfold singleUpload. destruct (files req) as [fields|]; [|by right; left].
  destruct fields as [|[field [f|fs]] [|? ?]]; simpl.
  - right. right. exists []. split_and!; [done|by left|done].
  - left. by exists field, f.
  - right. right. eexists. split_and!; [done|by left|done].
  - right. right. eexists. split_and!; [done|right; by eexists _, _|done].
  - right. right. eexists. split_and!; [done|by left|done].
Qed.

(** X21: [writeFile] wants exactly one uploaded file.  With a valid
    session and a URL in the query, it passes the 400 error "No files are
    uploaded..." to [next] when [req.files] is missing, and the 400 error
    "One file should be uploaded." when [req.files] does not hold exactly
    one field or holds an array under it, in both cases before the access
    grant or the URL is parsed.  It calls [next()] without an error
    exactly when all checks pass and grant and URL parse; it has then
    asked the pod service once to write the converted file, and it does
    not wait for the answer. *)
Theorem writeFile_spec key req ls :
  let out : @Outcome URL Grant Dataset := writeFile newURL jsonParse key req ls in
  let refused e := {| podOps := []; handover := NextError e |} in
  (handover out = NextOk
   ↔ ∃ iri g grant url field f,
       validateSession ls (session req) = None
       ∧ query req key = Some iri ∧ iri ≠ EmptyString
       ∧ req_accessGrant (session req) = Some g
       ∧ files req = Some [(field, inl f)]
       ∧ jsonParse g = Ok grant ∧ newURL iri = Ok url
       ∧ out = {| podOps := [OpWriteFile url (convertUploadedFileToFile f) grant];
                  handover := NextOk |})
  ∧ (validateSession ls (session req) = None →
     (∃ iri, query req key = Some iri ∧ iri ≠ EmptyString) →
     (files req = None →
      out = refused (HttpError
        "No files are uploaded, or the express-fileupload module should be included."
        (Num 400)))
     ∧ (∀ fields, files req = Some fields →
          length fields ≠ 1%nat ∨ (∃ field fs, fields = [(field, inr fs)]) →
          out = refused (HttpError "One file should be uploaded." (Num 400)))).
Proof.
  simpl. unfold writeFile.
  open_checks req ls key (fileUrlRequired key).
  - rewrite Hpg.
    destruct (singleUpload_cases req)
      as [(field & f & Hf & ->)|[[Hf ->]|(fields & Hf & Hbad & ->)]]; simpl.
    + split.
      2:{ intros _ _. split; [congruence|].
          intros fields Hf2. rewrite Hf in Hf2. injection Hf2 as <-.
          intros [H|(? & ? & ?)]; done. }
      destruct (jsonParse g) as [grant|e] eqn:Hj; simpl.
      2:{ split; [done|].
          intros (? & ? & ? & ? & ? & ? & _ & _ & _ & ? & _ & ? & _).
          congruence. }
      destruct (newURL iri) as [url|e] eqn:Hu; simpl.
      2:{ split; [done|].
          intros (? & ? & ? & ? & ? & ? & _ & ? & _ & _ & _ & _ & ? & _).
          congruence. }
      split; [|done]. intros _. exists iri, g, grant, url, field, f.
      by split_and!.
    + split.
      * split; [done|].
        intros (? & ? & ? & ? & ? & ? & _ & _ & _ & _ & ? & _). congruence.
      * intros _ _. split; [done|]. intros fields ?. congruence.
    + split.
      * split; [done|].
        intros (? & ? & ? & ? & ? & ? & _ & _ & _ & _ & Hf' & _).
        rewrite Hf in Hf'. injection Hf' as ->.
        destruct Hbad as [?|(? & ? & ?)]; done.
      * intros _ _. split; [congruence|]. done.
  - split.
    + split; [done|].
      intros (v & ? & ? & ? & ? & ? & _ & ? & ? & _). destruct Hnq.
      by exists v.
    + intros _ H. by destruct Hnq.
  - split.
    + split; [done|]. intros (? & ? & ? & ? & ? & ? & ? & _). congruence.
    + intros ?. congruence.
Qed.

End ResourceProofs.

(** * The access grant over time *)

(** X22: The expiry test only moves one way with time.  A request that
    [validateAccessGrant] lets through at some time it also lets through
    at any earlier time, so a grant that is rejected, once, as expired is
    rejected at every later time. *)
Theorem validateAccessGrant_monotone (dateGetTime : string → number)
    (now later : Z) (data : SessionData) :
  now ≤ later →
  validateAccessGrant dateGetTime later data = [CallNext] →
  validateAccessGrant dateGetTime now data = [CallNext].
Proof.
  intros Hle. unfold validateAccessGrant.
  destruct (negb (truthy_string (accessGrant data))); [done|].
  destruct (accessGrantExpirationDate data) as [d|]; [|done].
  destruct (truthy_string (Some d)); simpl; [|done].
  destruct (dateGetTime d) as [t|]; simpl; [|done].
  destruct (Z.ltb_spec t later); [done|].
  intros _. destruct (Z.ltb_spec t now); [lia|done].
Qed.

(** X23: Whatever error it is given, [errorHandler] answers it itself: it
    sets a status that is truthy (never [0], never [NaN]), sends one
    body after it, and does not call [next]. *)
Theorem errorHandler_answers (error : JsError) :
  (∀ status, Status status ∈ errorHandler error →
     truthy status = true ∧ status ≠ Num 0 ∧ status ≠ NaN)
  ∧ (∃ status body, errorHandler error = [Status status; Send body])
  ∧ CallNext ∉ errorHandler error.
Proof.
  assert (∃ status, truthy status = true
            ∧ errorHandler error = [Status status; Send (message error)])
    as (status & Htruthy & ->).
  { destruct error as [m|m c]; simpl.
    - by exists (Num 500).
    - destruct (truthy c) eqn:Hc; [by exists c|by exists (Num 500)]. }
  split_and!.
  - intros status' [[= ->]|H]%elem_of_cons.
    + split; [done|]. split; intros ->; done.
    + by apply list_elem_of_singleton in H.
  - by eexists _, _.
  - rewrite !not_elem_of_cons. split_and!; [done..|apply not_elem_of_nil].
Qed.

(** * Examples *)

Section Examples.

Local Open Scope string_scope.

Local Abbreviation alice :=
  (mkSession (mkInfo "s2" (Some "https://id.example/alice") true)).

Local Abbreviation two_cycles :=
  (call "t" (call "s2" (call "t" (call "s2" init)))).

(** Calls for ["s2"], ["t"], ["s2"], ["t"]; the store finds ["s2"]. *)
Lemma found_session_shared_example :
  ∃ s', step two_cycles (ESettle 0 (Fetched (Some alice))) = Some s'
    ∧ tasks s' !! 0%nat = Some (Returned (Some alice))
    ∧ tasks s' !! 2%nat = Some (Returned (Some alice))
    ∧ tasks s' !! 3%nat = Some (AwaitSubject "t").
Proof.
  destruct (found_session_shared two_cycles 0 "s2" alice)
    as (s' & Hstep & Hleader & Hfollowers & Hothers).
  - reflexivity.
  - reflexivity.
  - exists s'. split; [exact Hstep|]. split; [exact Hleader|]. split.
    + apply Hfollowers. reflexivity.
    + apply Hothers; [discriminate|reflexivity].
Defined.

Lemma follower_outcome_sound_example :
  let s' := resume 0 "s" (Rejected "boom") (call "s" (call "s" init)) in
  tasks s' !! 1%nat = Some (AwaitSubject "s")
  ∨ (∃ session, tasks s' !! 1%nat = Some (Returned (Some session))
                ∧ sessionId (info session) = "s")
  ∨ tasks s' !! 1%nat = Some (Thrown "s").
Proof.
  apply (follower_outcome_sound (call "s" (call "s" init))
           [ESettle 0 (Rejected "boom")]).
  - reflexivity.
  - reflexivity.
Defined.

(** A leader whose fetch is rejected with a [Symbol]: its call throws. *)
Lemma leader_outcome_example :
  let es := [ECall "s";
             ESettle 0 (RejectedUnprintable
                          "Cannot convert a Symbol value to a string")] in
  let s' := resume 0 "s"
              (RejectedUnprintable "Cannot convert a Symbol value to a string")
              (call "s" (call "s" init)) in
  (tasks s' !! 0%nat = Some (AwaitStorage "s")
   ∧ existsb (isSettleOf 0) es = false)
  ∨ ∃ r, ESettle 0 r ∈ es
         ∧ tasks s' !! 0%nat
           = Some match r with
                  | Fetched session => Returned session
                  | Rejected _ => Returned None
                  | RejectedUnprintable thrown => Thrown thrown
                  end.
Proof.
  apply (leader_outcome (call "s" init)
           [ECall "s";
            ESettle 0 (RejectedUnprintable
                         "Cannot convert a Symbol value to a string")]
           _ 0 "s").
  - reflexivity.
  - reflexivity.
Defined.

Lemma settled_outcome_final_example :
  tasks (resume 1 "s" (Rejected "x")
           (call "s" (resume 0 "s" (Fetched None) (call "s" init)))) !! 0%nat
  = Some (Returned None).
Proof.
  apply (settled_outcome_final (resume 0 "s" (Fetched None) (call "s" init))
           [ECall "s"; ESettle 1 (Rejected "x")]).
  - reflexivity.
  - intros sid. split; discriminate.
  - reflexivity.
Defined.

Lemma emission_accounting_example :
  let s := resume 0 "a" (Fetched None) (call "b" (call "a" init)) in
  (2 * length (backendCalls s)
   = 2 * length (refreshingSessions s) + length (emitted s))%nat.
Proof.
  apply (emission_accounting
           (resume 0 "a" (Fetched None) (call "b" (call "a" init)))).
  exists [ECall "a"; ECall "b"; ESettle 0 (Fetched None)]. reflexivity.
Defined.

Lemma one_fetch_in_flight_per_id_example :
  let s := resume 0 "a" (Fetched None) (call "b" (call "a" init)) in
  "b" ∈ refreshingSessions s ↔ ∃ tid, tasks s !! tid = Some (AwaitStorage "b").
Proof.
  apply (one_fetch_in_flight_per_id
           [ECall "a"; ECall "b"; ESettle 0 (Fetched None)]
           (resume 0 "a" (Fetched None) (call "b" (call "a" init)))).
  - reflexivity.
  - reflexivity.
Defined.

Local Abbreviation logged_in_request :=
  (Some (mkReqSession (Some "s2") (mkSessionData (Some "{}") None))).

(** A request with a [solidSid] whose call of the wrapper threw: under
    [getSession] it is answered with 401. *)
Lemma getSession_guard_example :
  (unauthorized = [CallNext]
   ∧ Thrown "s2" = Returned None
   ∧ ∃ session w, None = Some session ∧ webId (info session) = Some w
                  ∧ w ≠ EmptyString ∧ isLoggedIn (info session) = true)
  ∨ (unauthorized = unauthorized ∧ CallNext ∉ unauthorized).
Proof.
  pose proof (getSession_guard logged_in_request init) as H.
  simpl in H. apply (proj2 H (Thrown "s2") None unauthorized).
  reflexivity.
Defined.

(** The same request under [getSessionOptional]. *)
Lemma getSessionOptional_always_next_example :
  afterAwait false (Thrown "s2") = Some (None, [CallNext]).
Proof.
  pose proof (getSessionOptional_always_next logged_in_request init) as H.
  simpl in H. exact (proj1 (proj2 H) "s2").
Defined.

Lemma rejected_fetch_response_example :
  ∃ s', step (call "s3" (call "s3" init)) (ESettle 0 (Rejected "boom")) = Some s'
    ∧ ∀ j t, (j = 0%nat
              ∨ tasks (call "s3" (call "s3" init)) !! j = Some (AwaitSubject "s3")) →
        tasks s' !! j = Some t →
        afterAwait true t = Some (None, unauthorized).
Proof.
  apply (rejected_fetch_response (call "s3" (call "s3" init)) 0 "s3" true).
  reflexivity.
Defined.

(** An authenticated request whose session holds no access grant. *)
Lemma validateSession_spec_example :
  ∃ e, validateSession (Some alice)
         (Some (mkReqSession (Some "s2") (mkSessionData None None))) = Some e
       ∧ errorHandler e
         = [Status (Num 500); Send "No valid access grant found for pod."].
Proof.
  apply (validateSession_spec (Some alice)
           (Some (mkReqSession (Some "s2") (mkSessionData None None)))).
  - split.
    + exists alice, "https://id.example/alice".
      split; [reflexivity|]. split; [reflexivity|].
      split; [discriminate|reflexivity].
    + exists "s2". split; [reflexivity|discriminate].
  - intros (g & Hg & _). discriminate.
Defined.

Lemma validateSession_behind_guards_example :
  validateSession (Some alice) logged_in_request = None.
Proof.
  apply (validateSession_behind_guards (λ _, NaN) 0
           (mkReqSession (Some "s2") (mkSessionData (Some "{}") None))
           "s2" (Returned (Some alice)) (Some alice)).
  - reflexivity.
  - reflexivity.
  - reflexivity.
Defined.

Lemma getPods_spec_example :
  getPods (λ w, Ok [w +:+ "/pod/"]) (Some alice)
  = (Some ["https://id.example/alice/pod/"], NextOk).
Proof.
  apply (getPods_spec (λ w, Ok [w +:+ "/pod/"]) (Some alice)).
  exists "https://id.example/alice", ["https://id.example/alice/pod/"].
  split.
  - exists alice. split; [reflexivity|]. split; [reflexivity|].
    split; [discriminate|reflexivity].
  - split; [reflexivity|]. split; [discriminate|reflexivity].
Defined.

Lemma getPodsOptional_spec_example :
  getPodsOptional (λ _, Throw (PlainError "unreachable")) None = (None, NextOk).
Proof.
  apply (getPodsOptional_spec (λ _, Throw (PlainError "unreachable")) None).
  intros (session & _ & Hs & _). discriminate.
Defined.

Lemma getPods_no_lookup_without_session_example :
  getPodsMandatoryOrOptional (λ _, Ok []) None true
  = getPodsMandatoryOrOptional (λ _, Throw (PlainError "down")) None true.
Proof.
  apply (getPods_no_lookup_without_session
           (λ _, Ok []) (λ _, Throw (PlainError "down")) None true).
  intros (session & _ & Hs & _). discriminate.
Defined.

Lemma getPods_behind_getSession_example :
  ∃ session w, Some alice = Some session ∧ webId (info session) = Some w
    ∧ match (λ _ : string, Ok ["https://pod.example/"]) w with
      | Ok [] => ∃ e body,
          getPods (λ _, Ok ["https://pod.example/"]) (Some alice)
            = (None, NextError e)
          ∧ errorHandler e = [Status (Num 404); Send body]
      | Ok l => getPods (λ _, Ok ["https://pod.example/"]) (Some alice)
                = (Some l, NextOk)
      | Throw e => getPods (λ _, Ok ["https://pod.example/"]) (Some alice)
                   = (None, NextError e)
      end.
Proof.
  apply (getPods_behind_getSession (λ _, Ok ["https://pod.example/"])
           (Returned (Some alice)) (Some alice)).
  reflexivity.
Defined.

Local Abbreviation resource_request files :=
  (mkRequest logged_in_request
     (λ k, if bool_decide (k = "resource") then Some "https://pod.example/data"
           else None)
     "not turtle" files).

Local Abbreviation parseAny := (λ s : string, Ok s).

Lemma getResource_spec_example :
  handover (snd (getResource parseAny parseAny
                   (λ url _, Ok ("dataset at " +:+ url))
                   "resource" (resource_request None) (Some alice)))
  = NextOk.
Proof.
  apply (getResource_spec parseAny parseAny
           (λ url _, Ok ("dataset at " +:+ url))
           "resource" (resource_request None) (Some alice)).
  exists "https://pod.example/data", "{}", "{}", "https://pod.example/data",
    "dataset at https://pod.example/data".
  split; [reflexivity|]. split; [reflexivity|]. split; [discriminate|].
  split; [reflexivity|]. split; [reflexivity|]. split; [reflexivity|].
  split; reflexivity.
Defined.

Lemma getFile_spec_example :
  fst (getFile (Dataset := string) parseAny parseAny
         (λ _ _, Throw (PlainError "no such file"))
         "resource" (resource_request None) (Some alice))
  = @None string.
Proof.
  apply (getFile_spec (Dataset := string) parseAny parseAny
           (λ _ _, Throw (PlainError "no such file"))
           "resource" (resource_request None) (Some alice)).
  discriminate.
Defined.

(** No session in [res.locals]: all four middlewares pass on the 401. *)
Lemma resource_checks_first_example :
  writeResource parseAny parseAny parseAny (λ _ _, Ok ()) (λ _ _ _, Ok ())
    "resource" (resource_request None) None
  = {| podOps := [];
       handover :=
         NextError (HttpError "No valid authenticated session found." (Num 401)) |}.
Proof.
  apply (resource_checks_first (Blob := string) parseAny parseAny parseAny
           (λ _ _, Ok "") (λ _ _, Ok ()) (λ _ _ _, Ok ()) (λ _ _, Ok "")
           "resource" (resource_request None) None).
  reflexivity.
Defined.

Lemma pod_access_target_example :
  ∃ iri g,
    validateSession (Some alice) logged_in_request = None
    ∧ query (resource_request None) "resource" = Some iri ∧ iri ≠ EmptyString
    ∧ req_accessGrant logged_in_request = Some g
    ∧ parseAny iri = Ok "https://pod.example/data"
    ∧ parseAny g = Ok "{}".
Proof.
  apply (pod_access_target (Blob := string) parseAny parseAny parseAny
           (λ _ _, Ok "") (λ _ _, Ok ()) (λ _ _ _, Ok ()) (λ _ _, Ok "")
           "resource" (resource_request None) (Some alice)
           (OpDeleteSolidDataset "https://pod.example/data" "{}")).
  right. left. simpl. apply list_elem_of_here.
Defined.

(** The body is not Turtle: the error comes after the dataset is gone. *)
Lemma writeResource_order_example :
  writeResource (Dataset := string) parseAny parseAny
    (λ _, Throw (PlainError "Unexpected token"))
    (λ _ _, Ok ()) (λ _ _ _, Ok ())
    "resource" (resource_request None) (Some alice)
  = {| podOps := [OpDeleteSolidDataset "https://pod.example/data" "{}"];
       handover := NextError (PlainError "Unexpected token") |}.
Proof.
  destruct (writeResource_order parseAny parseAny
              (λ _, Throw (PlainError "Unexpected token") : Try string)
              (λ _ _, Ok ()) (λ _ _ _, Ok ())
              "resource" (resource_request None) (Some alice))
    as (_ & _ & H).
  apply (H "https://pod.example/data" "{}" "https://pod.example/data" "{}").
  - reflexivity.
  - reflexivity.
  - discriminate.
  - reflexivity.
  - reflexivity.
  - reflexivity.
  - reflexivity.
Defined.

(** The converted file carries the upload's name and content, and its
    type in lower case. *)
Example convertUploadedFileToFile_example :
  convertUploadedFileToFile (mkUploadedFile "Scan.PNG" "bytes" "Image/PNG")
  = mkFile ["bytes"] "Scan.PNG" "image/png".
Proof. reflexivity. Qed.

(** Two files under one field. *)
Lemma writeFile_spec_example :
  writeFile (Dataset := string) parseAny parseAny "resource"
    (resource_request
       (Some [("scan", inr [mkUploadedFile "a.png" "" "image/png";
                            mkUploadedFile "b.png" "" "image/png"])]))
    (Some alice)
  = {| podOps := [];
       handover :=
         NextError (HttpError "One file should be uploaded." (Num 400)) |}.
Proof.
  destruct (writeFile_spec (Dataset := string) parseAny parseAny "resource"
    (resource_request
       (Some [("scan", inr [mkUploadedFile "a.png" "" "image/png";
                            mkUploadedFile "b.png" "" "image/png"])]))
    (Some alice)) as (_ & H).
  destruct H as (_ & H).
  - reflexivity.
  - exists "https://pod.example/data". split; [reflexivity|discriminate].
  - eapply H; [reflexivity|]. right. eexists _, _. reflexivity.
Defined.

Lemma validateAccessGrant_monotone_example :
  validateAccessGrant (λ _, Num 100) 50
    (mkSessionData (Some "{}") (Some "1970-01-01T00:00:00.100Z"))
  = [CallNext].
Proof.
  apply (validateAccessGrant_monotone (λ _, Num 100) 50 100).
  - lia.
  - reflexivity.
Defined.

(** An [HttpError] made with a status of [NaN] is answered with 500. *)
Lemma errorHandler_answers_example :
  truthy (Num 500) = true ∧ Num 500 ≠ Num 0 ∧ Num 500 ≠ NaN.
Proof.
  apply (proj1 (errorHandler_answers (HttpError "odd" NaN)) (Num 500)).
  simpl. apply list_elem_of_here.
Defined.

End Examples.
